(** * Conniebot: message pipeline, command router, reply lifecycle

    A shallow embedding of [src/conniebot.ts] (class [Conniebot]) and of
    [embed/embed.js], with the properties the specification states about
    them.

    JavaScript strings are sequences of UTF-16 code units, so they are
    modelled as [list N]; [.length] is [length], and the ellipsis the bot
    appends is the single code unit U+2026. *)

From Stdlib Require Import ZArith NArith Lia.
From stdpp Require Import base option list strings gmap.

Local Open Scope N_scope.

(** ** JavaScript strings *)

Abbreviation jsstring := (list N).

(** An ASCII literal of the source, as code units. *)
Fixpoint js (s : string) : jsstring :=
  match s with
  | EmptyString => []
  | String a s' => Ascii.N_of_ascii a :: js s'
  end.

(** [Array.prototype.join(sep)] on an array of strings. *)
Fixpoint join (sep : jsstring) (l : list jsstring) : jsstring :=
  match l with
  | [] => []
  | [x] => x
  | x :: l' => x ++ sep ++ join sep l'
  end.

(** [s.split(" ")]: split at every occurrence of the one-character
    separator; the empty string gives one empty token. *)
Fixpoint split_on (sep : N) (s : jsstring) : list jsstring :=
  match s with
  | [] => [[]]
  | c :: s' =>
      if c =? sep then [] :: split_on sep s'
      else match split_on sep s' with
           | tok :: toks => (c :: tok) :: toks
           | [] => [[c]]
           end
  end.

(** [s.slice(0, n)] for an integral [n]: a negative end counts from the
    end of the string, and the end is clamped to the string. *)
Definition slice0 (s : jsstring) (n : Z) : jsstring :=
  let len := Z.of_nat (length s) in
  let e := if (n <? 0)%Z then Z.max (len + n) 0 else Z.min n len in
  take (Z.to_nat e) s.

(** [s.startsWith(t)]. *)
Fixpoint starts_with (t s : jsstring) : bool :=
  match t, s with
  | [], _ => true
  | a :: t', b :: s' => (a =? b) && starts_with t' s'
  | _ :: _, [] => false
  end.

(** [s.includes(t)]. *)
Fixpoint includes (s t : jsstring) : bool :=
  starts_with t s ||
  match s with
  | [] => false
  | _ :: s' => includes s' t
  end.

(** JavaScript truthiness of a possibly undefined string: [undefined]
    and the empty string are falsy. *)
Definition truthy (o : option jsstring) : bool :=
  match o with
  | Some (_ :: _) => true
  | _ => false
  end.

(** ** The regular expressions of the command router

    [\s] is WhiteSpace and LineTerminator of ECMAScript; [.] (without the
    [s] flag) is everything but a LineTerminator. *)

Definition line_terminator (c : N) : bool :=
  existsb (N.eqb c) [10; 13; 8232; 8233].

Definition white_space (c : N) : bool :=
  existsb (N.eqb c) [9; 10; 11; 12; 13; 32; 160; 5760; 8232; 8233; 8239; 8287; 12288; 65279]
  || ((8192 <=? c) && (c <=? 8202)).

Definition non_space (c : N) : bool := negb (white_space c).  (* \S *)
Definition dot (c : N) : bool := negb (line_terminator c).    (* .  *)

(** The pattern language the router needs: a sequence of atoms. *)
Inductive atom : Type :=
  | Bol                          (* ^ , no [m] flag *)
  | Lit (c : N)                  (* one literal (escaped) character *)
  | OptLit (c : N)               (* c? , greedy *)
  | CapStar (cls : N -> bool).   (* (cls* ) , a capture group, greedy *)

(** A greedy star under a capture group: take one more character of the
    class if what follows can still match, and stop otherwise. [k] matches
    the rest of the pattern; the result pairs the capture with the captures
    of the rest. *)
Fixpoint star (cls : N -> bool) (k : bool -> jsstring -> option (list jsstring))
    (start : bool) (s : jsstring) : option (jsstring * list jsstring) :=
  let stop := pair [] <$> k start s in
  match s with
  | x :: s' =>
      if cls x then
        match star cls k false s' with
        | Some (cap, m) => Some (x :: cap, m)
        | None => stop
        end
      else stop
  | [] => stop
  end.

(** Backtracking matcher at one start position. [start] tells whether the
    current position is index 0. The result lists the captures in order. *)
Fixpoint exec (r : list atom) (start : bool) (s : jsstring) {struct r}
  : option (list jsstring) :=
  match r with
  | [] => Some []
  | Bol :: r' => if start then exec r' start s else None
  | Lit c :: r' =>
      match s with
      | x :: s' => if x =? c then exec r' false s' else None
      | [] => None
      end
  | OptLit c :: r' =>
      let taken :=
        match s with
        | x :: s' => if x =? c then exec r' false s' else None
        | [] => None
        end in
      match taken with
      | Some m => Some m
      | None => exec r' start s
      end
  | CapStar cls :: r' =>
      (fun '(cap, m) => cap :: m) <$> star cls (exec r') start s
  end.

(** [String.prototype.match] with a regular expression without the [g]
    flag: the first start position, from index 0 on, at which the pattern
    matches. Only the captures are kept (the source discards the full
    match: [const [, cmd, args] = toks]). *)
Fixpoint scan (r : list atom) (start : bool) (s : jsstring)
  : option (list jsstring) :=
  match exec r start s with
  | Some m => Some m
  | None =>
      match s with
      | [] => None
      | _ :: s' => scan r false s'
      end
  end.

Definition js_match (s : jsstring) (r : list atom) : option (list jsstring) :=
  scan r true s.

(** The pattern built by [XRegExp.build] in [command]: a non-capturing
    group holding the anchor and the escaped prefix, then a capture group
    of non-whitespace characters repeated, an optional space, and a capture
    group of any characters repeated. [XRegExp.escape] makes every
    character of the prefix match itself. *)
Definition prefixRegex (prefix : jsstring) : list atom :=
  Bol :: (Lit <$> prefix) ++ [CapStar non_space; OptLit 32; CapStar dot].

(** ** Data of the bot *)

(** Discord identifiers (snowflakes) are compared for equality only. *)
Abbreviation Snowflake := N.

Record EmbedField : Type := { name : jsstring; value : jsstring }.

(** [MessageEmbedOptions] / [RichEmbed], as far as the code reads it. An
    absent property is [None]. *)
Record MessageEmbedOptions : Type := {
  title : option jsstring;
  description : option jsstring;
  fields : option (list EmbedField);
}.

(** [MessageEmbed | string]: what is sent, and what a template is. *)
Inductive Reply : Type :=
  | Plain (text : jsstring)
  | Structured (embed : MessageEmbedOptions).

Record User : Type := { user_id : Snowflake; bot : bool }.

Record Message : Type := {
  message_id : Snowflake;
  content : jsstring;
  author : User;
  channel : Snowflake;
}.

Record MessageReaction : Type := {
  reaction_message : Message;
  emoji_name : jsstring;
}.

Record JsError : Type := { err_message : option jsstring }.

Record IConniebotConfig : Type := {
  activeMessage : jsstring;
  database : jsstring;
  deleteEmoji : jsstring;
  help : Reply;
  owner : jsstring;
  prefix : jsstring;
  timeoutChars : Z;
  timeoutMessage : Reply;
  token : jsstring;
  x2iFiles : jsstring;
}.

(** [X2IMatcher], known here by its one method. *)
Record X2IMatcher : Type := { search : jsstring -> list jsstring }.

(** ** The persistent store

    [helper/db-management] is not part of the sources at hand. *)

Record ReplyRecord : Type := {
  origin_message_id : Snowflake;
  origin_channel_id : Snowflake;
  origin_author_id : Snowflake;
  reply_message_ids : list Snowflake;
  created_at : N;
}.

Record ErrorRecord : Type := {
  error_text : jsstring;
  occurred_at : N;
  notified : bool;
}.

(** ** Effects

    Everything the bot does to the outside is appended to a trace: the
    calls on the transport ([Send], [React], [MessageDelete]), on the store
    ([DbAddMessage], [DbDeleteMessage], [DbAddError]), on a command
    callback ([Call]), on the logger ([Log]), on the startup helpers
    ([Started]) and on the process ([Exit]). An awaited call that rejects
    leaves no event. *)

Inductive LogArg : Type :=
  | LText (s : jsstring)
  | LSummary (m : Message)            (* messageSummary(message) *)
  | LErr (err : option JsError).

Inductive StartupTask : Type := UpdateActivity | NotifyRestart | NotifyNewErrors.

Inductive Event : Type :=
  | Send (ch : Snowflake) (response : Reply) (sent : Snowflake)
  | React (msg : Snowflake) (emoji : jsstring)
  | MessageDelete (msg : Snowflake)
  | DbAddMessage (r : ReplyRecord)
  | DbDeleteMessage (msg : Snowflake)
  | DbAddError (r : ErrorRecord)
  | Call (cmd : jsstring) (m : Message) (args : list jsstring)
  | Log (tag : jsstring) (args : list LogArg)
  | Started (t : StartupTask)
  | Exit (code : Z).

(** The world outside the bot object: the trace, the two tables of the
    store, the outcomes of the awaited transport and store operations to
    come ([Some e]: the operation rejects with [e]; past the end of the
    list every operation succeeds), the identifier the transport gives the
    next message sent, and the clock. A world whose list of outcomes is
    empty is one where the transport and the store answer every call. *)
Record World : Type := {
  events : list Event;
  replies : list ReplyRecord;
  errors : list ErrorRecord;
  faults : list (option JsError);
  next_id : Snowflake;
  now : N;
}.

Inductive Completion (A : Type) : Type :=
  | Normal (a : A)
  | Throw (e : JsError).
Arguments Normal {A} a.
Arguments Throw {A} e.

(** An [async] computation: it changes the world and resolves or rejects. *)
Definition M (A : Type) : Type := World -> Completion A * World.

#[global] Instance M_ret : MRet M := fun A a w => (Normal a, w).

#[global] Instance M_bind : MBind M := fun A B f m w =>
  match m w with
  | (Normal a, w') => f a w'
  | (Throw e, w') => (Throw e, w')
  end.

Definition throw {A} (e : JsError) : M A := fun w => (Throw e, w).

Definition lift {A} (c : Completion A) : M A := fun w => (c, w).

(** [try { body } catch (err) { handler }]. *)
Definition try_catch {A} (body : M A) (handler : JsError -> M A) : M A :=
  fun w =>
    match body w with
    | (Throw e, w') => handler e w'
    | r => r
    end.

(** Updates of the world. *)
Definition add_events (es : list Event) (w : World) : World :=
  {| events := events w ++ es; replies := replies w; errors := errors w;
     faults := faults w; next_id := next_id w; now := now w |}.

Definition with_replies (rs : list ReplyRecord) (w : World) : World :=
  {| events := events w; replies := rs; errors := errors w;
     faults := faults w; next_id := next_id w; now := now w |}.

Definition with_errors (rs : list ErrorRecord) (w : World) : World :=
  {| events := events w; replies := replies w; errors := rs;
     faults := faults w; next_id := next_id w; now := now w |}.

Definition with_faults (fs : list (option JsError)) (w : World) : World :=
  {| events := events w; replies := replies w; errors := errors w;
     faults := fs; next_id := next_id w; now := now w |}.

Definition with_next_id (i : Snowflake) (w : World) : World :=
  {| events := events w; replies := replies w; errors := errors w;
     faults := faults w; next_id := i; now := now w |}.

(** An operation that cannot fail, given by what it returns and how it
    changes the world. *)
Definition effect {A} (f : World -> A * World) : M A := fun w =>
  let '(a, w') := f w in (Normal a, w').

Definition emit (e : Event) : M unit := effect (fun w => ((), add_events [e] w)).

(** The outcome of the next awaited operation. *)
Definition io : M unit := fun w =>
  match faults w with
  | [] => (Normal (), w)
  | None :: fs => (Normal (), with_faults fs w)
  | Some e :: fs => (Throw e, with_faults fs w)
  end.

Definition log (tag : jsstring) (args : list LogArg) : M unit := emit (Log tag args).

(** [await message.channel.send(response)]: resolves with the message
    sent. *)
Definition channel_send (ch : Snowflake) (response : Reply) : M Snowflake :=
  io ;; effect (fun w =>
    let i := next_id w in
    (i, with_next_id (i + 1) (add_events [Send ch response i] w))).

(** [responseMessage.react(emoji)], not awaited. *)
Definition react (msg : Snowflake) (emoji : jsstring) : M unit := emit (React msg emoji).

(** [await reaction.message.delete()]. *)
Definition message_delete (msg : Message) : M unit :=
  io ;; emit (MessageDelete (message_id msg)).

Definition process_exit (code : Z) : M unit := emit (Exit code).

(** A record is found by its origin message or by any of its replies. *)
Definition record_of (msg : Snowflake) (r : ReplyRecord) : bool :=
  (origin_message_id r =? msg) || existsb (N.eqb msg) (reply_message_ids r).

(** The persisted origin author of a message, if it has a record. *)
Definition stored_author (w : World) (m : Message) : option Snowflake :=
  origin_author_id <$> List.find (record_of (message_id m)) (replies w).

(** The world without the records of a message. *)
Definition without_record (msg : Snowflake) (w : World) : World :=
  with_replies (List.filter (fun r => negb (record_of msg r)) (replies w)) w.

(** The record [addError] writes for a fault. *)
Definition error_record (w : World) (err : option JsError) : ErrorRecord :=
  {| error_text := default [] (err ≫= err_message); occurred_at := now w;
     notified := false |}.

(** Modelled from the spec: [ConniebotDatabase.addMessage] of
    [helper/db-management], "insert reply record": persists the
    ReplyRecord that associates the origin message with all the reply
    message ids. *)
Definition db_addMessage (m : Message) (responses : list Snowflake) : M unit :=
  io ;; effect (fun w =>
    let r := {| origin_message_id := message_id m; origin_channel_id := channel m;
                origin_author_id := user_id (author m);
                reply_message_ids := responses; created_at := now w |} in
    ((), with_replies (replies w ++ [r]) (add_events [DbAddMessage r] w))).

(** Modelled from the spec: [ConniebotDatabase.getMessageAuthor] of
    [helper/db-management], "look up reply record by origin or by any
    associated reply id", giving the persisted origin author id, or
    [undefined] when there is no record. *)
Definition db_getMessageAuthor (m : Message) : M (option Snowflake) :=
  io ;; effect (fun w => (stored_author w m, w)).

(** Modelled from the spec: [ConniebotDatabase.deleteMessage] of
    [helper/db-management], "delete reply record"; deleting where there is
    no record changes nothing in the table. *)
Definition db_deleteMessage (m : Message) : M unit :=
  io ;; effect (fun w =>
    ((), without_record (message_id m) (add_events [DbDeleteMessage (message_id m)] w))).

(** Modelled from the spec: [ConniebotDatabase.addError] of
    [helper/db-management], "insert error": one ErrorRecord, not yet
    notified. *)
Definition db_addError (err : option JsError) : M unit :=
  io ;; effect (fun w =>
    let r := error_record w err in
    ((), with_errors (errors w ++ [r]) (add_events [DbAddError r] w))).

(** ** The command table

    [this.commands] is an object literal used as a map from command names
    to callbacks. A callback resolves with a log item ([None]:
    [undefined]; [Some s]: an item whose [String] is [s]) or rejects. *)

Definition CommandCallback : Type :=
  Message -> list jsstring -> Completion (option jsstring).

(** What a property of the table holds: something with a [bind] that can
    be called, or something whose read or whose [bind] fails with a
    TypeError. *)
Inductive Property : Type :=
  | Callable (f : CommandCallback)
  | NotCallable.

Definition TypeError : JsError := {| err_message := Some (js "TypeError") |}.

(** What is left to the JavaScript engine: [Function] called as a
    callback, that is on the message and the argument tokens, which it
    compiles as the parameters and the body of a new function or rejects
    as a syntax error; and whether a callback, as a function object, has a
    [prototype] of its own (a function declared with [function] has one,
    an arrow function and an [async] function have none). *)
Record Engine : Type := {
  Function_constructor : CommandCallback;
  has_prototype : CommandCallback -> bool;
}.

(** The table is created as [{}]: it has own properties, one for each
    name a callback was assigned to, and a prototype, which is
    [Object.prototype] ([proto] is [None]) until a callback is assigned to
    [__proto__]. That assignment creates no own property: it runs the
    setter the table inherits, which makes the callback the prototype of
    the table ([proto] is [Some callback]). So [own] never gets an entry
    under [__proto__], and none is looked for there. *)
Record ICommands : Type := {
  own : gmap jsstring CommandCallback;
  proto : option CommandCallback;
}.

(** [table[key] = callback]. *)
Definition set_property (key : jsstring) (callback : CommandCallback)
    (table : ICommands) : ICommands :=
  if bool_decide (key = js "__proto__")
  then {| own := own table; proto := Some callback |}
  else {| own := <[key := callback]> (own table); proto := proto table |}.

(** The callback a name was last assigned: the own property, and for
    [__proto__] the callback that is the prototype. *)
#[global] Instance ICommands_lookup : Lookup jsstring CommandCallback ICommands :=
  fun key table =>
    if bool_decide (key = js "__proto__") then proto table else own table !! key.

(** The operator [in] and the property read also see what the table
    inherits. Each inherited member is given by what it does when called
    as a callback, that is on the message and at least one string
    argument, with the bot as [this]. The members of [Object.prototype];
    reading [__proto__] gives the prototype [p] of the table. *)
Definition Object_prototype (p : option CommandCallback) : list (jsstring * Property) :=
  let object_Object : CommandCallback := fun _ _ => Normal (Some (js "[object Object]")) in
  let no : CommandCallback := fun _ _ => Normal (Some (js "false")) in
  let undef : CommandCallback := fun _ _ => Normal None in
  let not_a_function : CommandCallback := fun _ _ => Throw TypeError in
  [ (js "constructor", Callable (fun m _ => Normal (Some (content m))));
    (js "__defineGetter__", Callable not_a_function);
    (js "__defineSetter__", Callable not_a_function);
    (js "hasOwnProperty", Callable no);
    (js "__lookupGetter__", Callable undef);
    (js "__lookupSetter__", Callable undef);
    (js "isPrototypeOf", Callable no);
    (js "propertyIsEnumerable", Callable no);
    (js "toString", Callable object_Object);
    (js "valueOf", Callable object_Object);
    (js "__proto__", match p with Some f => Callable f | None => NotCallable end);
    (js "toLocaleString", Callable object_Object) ].

(** The members of [Function.prototype]. Its methods want a function as
    [this] and are given the bot; [arguments] and [caller] cannot be
    read, or read as [null]. *)
Definition Function_prototype (engine : Engine) : list (jsstring * Property) :=
  let not_a_function : CommandCallback := fun _ _ => Throw TypeError in
  [ (js "arguments", NotCallable);
    (js "caller", NotCallable);
    (js "constructor", Callable (Function_constructor engine));
    (js "apply", Callable not_a_function);
    (js "bind", Callable not_a_function);
    (js "call", Callable not_a_function);
    (js "toString", Callable not_a_function) ].

(** The own properties of a callback as it was declared: a number, a
    string, and an object when there is one. *)
Definition function_object (engine : Engine) (f : CommandCallback)
  : list (jsstring * Property) :=
  [ (js "length", NotCallable); (js "name", NotCallable) ]
  ++ (if has_prototype engine f then [(js "prototype", NotCallable)] else []).

(** What the table inherits, nearest first: through a callback that has
    become its prototype it inherits from that function, from
    [Function.prototype] and from [Object.prototype]. *)
Definition prototype_chain (engine : Engine) (p : option CommandCallback)
  : list (jsstring * Property) :=
  match p with
  | Some f => function_object engine f ++ Function_prototype engine ++ Object_prototype p
  | None => Object_prototype p
  end.

Definition inherited (engine : Engine) (p : option CommandCallback) (key : jsstring)
  : option Property :=
  snd <$> List.find (fun kv => bool_decide (fst kv = key)) (prototype_chain engine p).

(** [key in table], and [table[key]] when it is. *)
Definition get_property (engine : Engine) (table : ICommands) (key : jsstring)
  : option Property :=
  match table !! key with
  | Some cb => Some (Callable cb)
  | None => inherited engine (proto table) key
  end.

Record Conniebot : Type := {
  bot_user : option User;                     (* this.bot.user *)
  config : IConniebotConfig;
  commands : ICommands;
  x2i : option X2IMatcher;
  ready : bool;
}.

(** The bot as the constructor leaves it. *)
Definition new_Conniebot (cfg : IConniebotConfig) (u : option User) : Conniebot :=
  {| bot_user := u; config := cfg; commands := {| own := ∅; proto := None |};
     x2i := None; ready := false |}.

(** [register(command, callback)]: [this.commands[command] = callback]. *)
Definition register (command : jsstring) (callback : CommandCallback) (b : Conniebot)
  : Conniebot :=
  {| bot_user := bot_user b; config := config b;
     commands := set_property command callback (commands b);
     x2i := x2i b; ready := ready b |}.

(** [registerCommands(callbacks)], over the entries in order. *)
Definition registerCommands (callbacks : list (jsstring * CommandCallback))
    (b : Conniebot) : Conniebot :=
  foldl (fun b' nc => register (fst nc) (snd nc) b') b callbacks.

Definition ELLIPSIS : N := 8230.   (* U+2026 *)
Definition NEWLINE : N := 10.
Definition ESC : N := 27.          (* \x1b *)

(** The format string of the first log line of [loadKeys], with its two
    colour sequences. *)
Definition loading_format : jsstring :=
  js "Loading X2I keys from: " ++ [ESC] ++ js "[96m%s" ++ [ESC] ++ js "[0m...".

Section Bot.

(** [formatObject] of [helper/utils/format], applied to a template and
    the context [{ user, config }]. *)
Variable formatObject : Reply -> option User -> IConniebotConfig -> Reply.

(** What the rule files under [config.x2iFiles] load to, that is what
    [new X2IMatcher(x2iData.map(d => yaml.safeLoad(d)))] comes to on
    their contents: the matcher, or the error [yaml.safeLoad] or the
    constructor throws. *)
Variable x2iKeys : Completion X2IMatcher.

Variable engine : Engine.

(** [loadKeys]: awaits the listing of the directory, then the reading of
    all the files, and builds the matcher after the second log line. *)
Definition loadKeys (b : Conniebot) : M X2IMatcher :=
  log (js "info") [LText loading_format; LText (x2iFiles (config b))] ;;
  io ;;
  io ;;
  log (js "info") [LText (js "X2I keys have been loaded.")] ;;
  lift x2iKeys.

(** [startup]: resolves with the bot as it has become. *)
Definition startup (b : Conniebot) : M Conniebot :=
  log (js "info") [LText (js "Bot ready. Setting up...")] ;;
  emit (Started UpdateActivity) ;;
  emit (Started NotifyRestart) ;;
  emit (Started NotifyNewErrors) ;;
  keys ← loadKeys b ;
  log (js "info") [LText (js "Setup complete.")] ;;
  mret {| bot_user := bot_user b; config := config b; commands := commands b;
          x2i := Some keys; ready := true |}.

(** [panicResponsibly(err, exit = true)]. *)
Definition panicResponsibly (b : Conniebot) (err : option JsError) (exit : bool)
  : M unit :=
  log (js "error") [LErr err] ;;
  db_addError err ;;
  if exit then process_exit 1 else mret ().

(** [command(message)]. *)
Definition command (b : Conniebot) (message : Message) : M unit :=
  match js_match (content message) (prefixRegex (prefix (config b))) with
  | None => mret ()
  | Some toks =>
      let cmd := default [] (toks !! 0%nat) in
      let args := default [] (toks !! 1%nat) in
      match get_property engine (commands b) cmd with
      | None => mret ()
      | Some NotCallable => throw TypeError
      | Some (Callable cb) =>
          try_catch
            (emit (Call cmd message (split_on 32 args)) ;;
             logItem ← lift (cb message (split_on 32 args)) ;
             log (js "success:command/" ++ cmd) [LText (default [] logItem)])
            (fun err => log (js "error:command/" ++ cmd) [LErr (Some err)])
      end
  end.

(** The loop of [x2iExec] that sends the responses. *)
Fixpoint send_all (b : Conniebot) (message : Message) (responses : list Reply)
    (responseMessages : list Snowflake) : M (list Snowflake) :=
  match responses with
  | [] => mret responseMessages
  | response :: rest =>
      responseMessage ← channel_send (channel message) response ;
      react responseMessage (deleteEmoji (config b)) ;;
      send_all b message rest (responseMessages ++ [responseMessage])
  end.

(** The text [x2iExec] works on. *)
Definition x2i_results (b : Conniebot) (message : Message) : jsstring :=
  match x2i b with
  | Some matcher => join [NEWLINE] (search matcher (content message))
  | None => []
  end.

(** The responses of [x2iExec] and its log code. *)
Definition x2i_responses (b : Conniebot) (results : jsstring) : list Reply * jsstring :=
  if (Z.of_nat (length results) >? timeoutChars (config b))%Z then
    let timeoutMessage := formatObject (timeoutMessage (config b)) (bot_user b) (config b) in
    ([Plain (slice0 results (timeoutChars (config b)) ++ [ELLIPSIS]); timeoutMessage],
     js "partial")
  else ([Plain results], js "all").

(** [x2iExec(message)]. *)
Definition x2iExec (b : Conniebot) (message : Message) : M bool :=
  let results := x2i_results b message in
  let parsed := negb (bool_decide (results = [])) in
  (if parsed return M unit then
     let '(responses, logCode) := x2i_responses b results in
     let respond (stat : jsstring) (ms : list LogArg) :=
       log (stat ++ js ":x2i/" ++ logCode) (LSummary message :: ms) in
     try_catch
       (responseMessages ← send_all b message responses [] ;
        db_addMessage message responseMessages ;;
        respond (js "success") [])
       (fun err => respond (js "error") [LErr (Some err)])
   else mret ()) ;;
  mret parsed.

(** [parse(message)]. *)
Definition parse (b : Conniebot) (message : Message) : M unit :=
  if bot (author message) then mret ()
  else
    x2iExec b message ≫= fun parsed : bool =>
    if parsed then mret () else command b message.

(** [reactDeleteMessage(reaction, user)]. *)
Definition reactDeleteMessage (b : Conniebot) (reaction : MessageReaction)
    (user : User) : M unit :=
  if bool_decide (Some (user_id user) = user_id <$> bot_user b) then mret ()
  else
    origin ← db_getMessageAuthor (reaction_message reaction) ;
    if bool_decide (Some (user_id user) ≠ origin) return M unit then mret ()
    else if bool_decide (emoji_name reaction ≠ deleteEmoji (config b)) then mret ()
    else
      message_delete (reaction_message reaction) ;;
      db_deleteMessage (reaction_message reaction).

(** The listeners the constructor installs. *)
Definition on_message (b : Conniebot) (message : Message) : M unit :=
  if ready b then parse b message else mret ().

Definition on_messageReactionAdd (b : Conniebot) (reaction : MessageReaction)
    (user : User) : M unit :=
  if ready b then reactDeleteMessage b reaction user else mret ().

Definition is_connection_reset (err : option JsError) : bool :=
  match err with
  | Some e =>
      match err_message e with
      | Some msg => truthy (Some msg) && includes msg (js "ECONNRESET")
      | None => false
      end
  | None => false
  end.

Definition on_error (b : Conniebot) (err : option JsError) : M unit :=
  if is_connection_reset err
  then log (js "warn") [LText (js "connection reset. oops!")]
  else panicResponsibly b err true.

(** [process.once("uncaughtException", this.panicResponsibly)]: the
    listener receives the error and its origin, a non-empty string, in
    the place of [exit]. *)
Definition on_uncaughtException (b : Conniebot) (err : option JsError) : M unit :=
  panicResponsibly b err true.

End Bot.

(** ** The earlier revision of [conniebot.ts]

    It reads its settings from the [config] package, calls the matcher as
    a function that returns the rendered text, tags and records nothing,
    and has no readiness flag. Only what differs is embedded. *)
Module Older.
Section Bot.

Variable formatObject : Reply -> option User -> IConniebotConfig -> Reply.
Variable x2i : jsstring -> jsstring.
Variable c : IConniebotConfig.
Variable client_user : option User.

Definition x2i_responses (results : jsstring) : list Reply * jsstring :=
  let charMax := timeoutChars c in
  if (Z.of_nat (length results) >? charMax)%Z then
    let timeoutMessage := formatObject (timeoutMessage c) client_user c in
    ([Plain (slice0 results (charMax - 1) ++ [ELLIPSIS]); timeoutMessage], js "partial")
  else ([Plain results], js "all").

Fixpoint send_all (message : Message) (responses : list Reply) : M unit :=
  match responses with
  | [] => mret ()
  | response :: rest =>
      channel_send (channel message) response ;;
      send_all message rest
  end.

Definition x2iExec (message : Message) : M bool :=
  let results := x2i (content message) in
  let parsed := negb (bool_decide (results = [])) in
  (if parsed return M unit then
     let '(responses, logCode) := x2i_responses results in
     let respond (stat : jsstring) (ms : list LogArg) :=
       log (stat ++ js ":x2i/" ++ logCode) (LSummary message :: ms) in
     try_catch
       (send_all message responses ;; respond (js "success") [])
       (fun err => respond (js "error") [LErr (Some err)])
   else mret ()) ;;
  mret parsed.

Definition parse (command : Message -> M unit) (message : Message) : M unit :=
  if bot (author message) then mret ()
  else
    x2iExec message ≫= fun parsed : bool =>
    if parsed then mret () else command message.

End Bot.
End Older.

(** ** [embed/embed.js] *)
Module Embed.

Definition bold (s : jsstring) : jsstring := js "**" ++ s ++ js "**".

(** [handleBody(message, headersImportant)]. *)
Definition handleBody (message : MessageEmbedOptions) (headersImportant : bool)
  : jsstring :=
  let body :=
    match fields message with
    | Some fs =>
        (fun field =>
           let fieldString :=
             if headersImportant then bold (name field) ++ [NEWLINE] else [] in
           fieldString ++ value field) <$> fs
    | None => []
    end in
  join [NEWLINE; NEWLINE] body.

(** [strip(message, headersImportant)]. *)
Definition strip (message : MessageEmbedOptions) (headersImportant : bool)
  : jsstring :=
  let title :=
    if truthy (title message)
    then bold (default [] (title message)) ++ [NEWLINE] else [] in
  let desc :=
    if truthy (description message)
    then default [] (description message) ++ [NEWLINE] else [] in
  let body := handleBody message headersImportant in
  title ++ desc ++ [NEWLINE] ++ body.

(** [output(message, headersImportant)]; [embeds_active] is
    [config.get('embeds.active')]. *)
Definition output (embeds_active : bool) (message : MessageEmbedOptions)
    (headersImportant : bool) : Reply :=
  if embeds_active then Structured message
  else Plain (strip message headersImportant).

(** [exports.send(channel, message, headersImportant = true)]. *)
Definition send (embeds_active : bool) (ch : Snowflake)
    (message : MessageEmbedOptions) (headersImportant : option bool) : M Snowflake :=
  channel_send ch (output embeds_active message (default true headersImportant)).

(** Bold markup written out: two asterisks before and after. *)
Definition starred (s : jsstring) : jsstring := [42; 42] ++ s ++ [42; 42].

(** A title or a description makes a part when it is a string that is
    not empty. *)
Definition present (o : option jsstring) : list jsstring :=
  match o with
  | Some (c :: s) => [c :: s]
  | _ => []
  end.

(** The title line and the description line, as far as they are there. *)
Definition head_parts (message : MessageEmbedOptions) : list jsstring :=
  (starred <$> present (title message)) ++ present (description message).

(** The part of a field: its body, under its name in bold when headers
    are kept. *)
Definition field_part (headers : bool) (f : EmbedField) : jsstring :=
  (if headers then starred (name f) ++ [NEWLINE] else []) ++ value f.

Definition field_parts (message : MessageEmbedOptions) (headers : bool)
  : list jsstring :=
  field_part headers <$> default [] (fields message).

(** The plain rendering as the specification words it: the bold title
    line, the description line and the field bodies, each optionally
    under its bold header line, with the parts separated by blank
    lines. *)
Definition plain_rendering (message : MessageEmbedOptions) (headers : bool)
  : jsstring :=
  join [NEWLINE; NEWLINE] (head_parts message ++ field_parts message headers).

(** The plain rendering as [strip] builds it, in the same words: the
    title line and the description line each end with a line break and
    follow each other directly; one more line break comes after them,
    also when neither is there; then the field parts, with a blank line
    between one and the next. *)
Definition plain_rendering_amended (message : MessageEmbedOptions) (headers : bool)
  : jsstring :=
  concat ((fun line => line ++ [NEWLINE]) <$> head_parts message)
  ++ [NEWLINE] ++ join [NEWLINE; NEWLINE] (field_parts message headers).

End Embed.

(** ** Sample data *)

Definition alice : User := {| user_id := 11; bot := false |}.
Definition bob : User := {| user_id := 12; bot := false |}.
Definition connie : User := {| user_id := 1; bot := true |}.

Definition timeout_notice : Reply := Plain (js "(output truncated)").

Definition sample_config (limit : Z) : IConniebotConfig :=
  {| activeMessage := js "x/help"; database := js "db.sqlite"; deleteEmoji := js "X";
     help := Plain (js "help"); owner := js "42"; prefix := js "!";
     timeoutChars := limit; timeoutMessage := timeout_notice;
     token := js "t"; x2iFiles := js "x2i" |}.

(** A template renderer and a matcher to run the bot with: the template
    is left as it is, and the matcher renders every [x] of the text as
    [ks]. *)
Definition sample_format (t : Reply) (_ : option User) (_ : IConniebotConfig) : Reply := t.

Definition sample_matcher : X2IMatcher :=
  {| search := fun text => (fun _ => js "ks") <$> List.filter (N.eqb 120) text |}.

Definition SyntaxError : JsError := {| err_message := Some (js "SyntaxError") |}.

(** An engine to run the bot with: it refuses to compile what [command]
    would give [Function], and the callbacks are [async] functions. *)
Definition sample_engine : Engine :=
  {| Function_constructor := fun _ _ => Throw SyntaxError;
     has_prototype := fun _ => false |}.

Definition greet : CommandCallback := fun _ args => Normal (Some (join (js ",") args)).
Definition fail : CommandCallback := fun _ _ => Throw {| err_message := Some (js "boom") |}.

Definition sample_bot (limit : Z) : Conniebot :=
  {| bot_user := Some connie; config := sample_config limit;
     commands := commands (registerCommands [(js "greet", greet); (js "fail", fail)]
                             (new_Conniebot (sample_config limit) (Some connie)));
     x2i := Some sample_matcher; ready := true |}.

Definition message_from (u : User) (i : Snowflake) (text : string) : Message :=
  {| message_id := i; content := js text; author := u; channel := 7 |}.

Definition empty_world : World :=
  {| events := []; replies := []; errors := []; faults := []; next_id := 100; now := 0 |}.

(** ** Reading a trace *)

(** The parts sent, in order. *)
Definition sends (es : list Event) : list Reply :=
  omap (fun e => match e with Send _ response _ => Some response | _ => None end) es.

(** The handler calls, in order: the name and the argument tokens. *)
Definition calls (es : list Event) : list (jsstring * list jsstring) :=
  omap (fun e => match e with Call cmd _ args => Some (cmd, args) | _ => None end) es.

(** The tags logged, in order. *)
Definition log_tags (es : list Event) : list jsstring :=
  omap (fun e => match e with Log tag _ => Some tag | _ => None end) es.

Definition is_command_error (tag : jsstring) : bool :=
  starts_with (js "error:command/") tag.

(** What the transformation path leaves in the trace, and what the
    command router leaves. *)
Definition x2i_event (e : Event) : bool :=
  match e with
  | Send _ _ _ | React _ _ | DbAddMessage _ => true
  | Log tag _ => includes tag (js ":x2i/")
  | _ => false
  end.

Definition command_event (e : Event) : bool :=
  match e with
  | Call _ _ _ => true
  | Log tag _ => includes tag (js ":command/")
  | _ => false
  end.

(** A stretch of trace that is the transformation path's alone. *)
Definition x2i_only (es : list Event) : bool :=
  forallb (fun e => x2i_event e && negb (command_event e)) es.

(** A stretch of trace that is the router's. *)
Definition command_only (es : list Event) : bool := forallb command_event es.

(** What sending the responses one after the other leaves in the trace,
    the first of them getting the identifier [i]. *)
Fixpoint send_events (ch : Snowflake) (emoji : jsstring) (i : Snowflake)
    (responses : list Reply) : list Event :=
  match responses with
  | [] => []
  | response :: rest =>
      Send ch response i :: React i emoji :: send_events ch emoji (i + 1) rest
  end.

(** ** The router, in words

    What the pattern of [command] captures, read off the text directly:
    the text has to begin with the prefix; the command token is the
    longest run of non-whitespace characters after it; one space after the
    token is skipped; the arguments are what is left of that line. *)

Fixpoint take_while (p : N -> bool) (s : jsstring) : jsstring :=
  match s with
  | c :: s' => if p c then c :: take_while p s' else []
  | [] => []
  end.

Fixpoint drop_while (p : N -> bool) (s : jsstring) : jsstring :=
  match s with
  | c :: s' => if p c then drop_while p s' else s
  | [] => []
  end.

Definition skip_space (s : jsstring) : jsstring :=
  match s with
  | c :: s' => if c =? 32 then s' else s
  | [] => []
  end.

Definition route (prefix text : jsstring) : option (jsstring * jsstring) :=
  if starts_with prefix text then
    let rest := drop (length prefix) text in
    Some (take_while non_space rest,
          take_while dot (skip_space (drop_while non_space rest)))
  else None.

(** ** The guards of the deletion *)

Definition authorized (b : Conniebot) (w : World) (reaction : MessageReaction)
    (user : User) : bool :=
  negb (bool_decide (Some (user_id user) = user_id <$> bot_user b))
  && bool_decide (stored_author w (reaction_message reaction) = Some (user_id user))
  && bool_decide (emoji_name reaction = deleteEmoji (config b)).

(** The line [command] logs after the callback has resolved or rejected. *)
Definition handler_log (cmd : jsstring) (outcome : Completion (option jsstring)) : Event :=
  match outcome with
  | Normal logItem => Log (js "success:command/" ++ cmd) [LText (default [] logItem)]
  | Throw err => Log (js "error:command/" ++ cmd) [LErr (Some err)]
  end.

(** A reply of the bot to a message of alice, on record, and the reaction
    that asks for its deletion. *)
Definition reply_message : Message :=
  {| message_id := 100; content := js "ks"; author := connie; channel := 7 |}.

Definition world_with_reply : World :=
  with_replies
    [ {| origin_message_id := 50; origin_channel_id := 7; origin_author_id := 11;
         reply_message_ids := [100]; created_at := 0 |} ]
    empty_world.

Definition delete_reaction : MessageReaction :=
  {| reaction_message := reply_message; emoji_name := js "X" |}.

Definition connection_reset : JsError :=
  {| err_message := Some (js "read ECONNRESET") |}.

Definition other_fault : JsError :=
  {| err_message := Some (js "Unknown Message") |}.

(** ** Further definitions *)

Fixpoint last_registered (name : jsstring) (callbacks : list (jsstring * CommandCallback))
  : option CommandCallback :=
  match callbacks with
  | [] => None
  | (n, cb) :: rest =>
      match last_registered name rest with
      | Some cb' => Some cb'
      | None => if bool_decide (n = name) then Some cb else None
      end
  end.

Definition no_space (tok : jsstring) : bool := forallb (fun c => negb (c =? 32)) tok.

(** The identifiers the transport gives [n] messages sent in a row, the
    first being [i]. *)
Fixpoint ids_from (i : Snowflake) (n : nat) : list Snowflake :=
  match n with
  | O => []
  | S n' => i :: ids_from (i + 1) n'
  end.

(** The record [x2iExec] writes for a message answered by [n] replies. *)
Definition reply_record (w : World) (m : Message) (n : nat) : ReplyRecord :=
  {| origin_message_id := message_id m; origin_channel_id := channel m;
     origin_author_id := user_id (author m);
     reply_message_ids := ids_from (next_id w) n; created_at := now w |}.

(** The states a bot goes through when its rule files load to [keys]: as
    the constructor leaves it, after a registration, after a [startup]
    that resolved. *)
Inductive reachable (keys : X2IMatcher) (cfg : IConniebotConfig) (u : option User)
  : Conniebot -> Prop :=
  | reach_new : reachable keys cfg u (new_Conniebot cfg u)
  | reach_register command callback b :
      reachable keys cfg u b -> reachable keys cfg u (register command callback b)
  | reach_startup b w b' w' :
      reachable keys cfg u b ->
      startup (Normal keys) b w = (Normal b', w') ->
      reachable keys cfg u b'.

(** The events that take something away or stop the process. *)
Definition destructive (e : Event) : bool :=
  match e with
  | MessageDelete _ | DbDeleteMessage _ | DbAddError _ | Exit _ => true
  | _ => false
  end.

(** * Properties *)

(** ** The pattern of the router *)

Example js_match_greet :
  js_match (js "!greet alice bob") (prefixRegex (js "!"))
  = Some [js "greet"; js "alice bob"].
Proof. reflexivity. Qed.

(** With a rest of the pattern that always matches, whatever the position,
    the greedy star never gives a character back. *)
Lemma star_total cls k :
  (forall st s, is_Some (k st s)) ->
  (forall st st' s, k st s = k st' s) ->
  forall st s, star cls k st s = pair (take_while cls s) <$> k false (drop_while cls s).
Proof.
  intros Htot Hpos st s. revert st.
  induction s as [|x s IH]; intros st; simpl.
  - now rewrite (Hpos st false).
  - destruct (cls x).
    + rewrite IH. destruct (Htot false (drop_while cls s)) as [m ->]. reflexivity.
    + now rewrite (Hpos st false).
Qed.

Lemma exec_dot st s : exec [CapStar dot] st s = Some [take_while dot s].
Proof.
  cbn [exec]. rewrite star_total; [reflexivity | | reflexivity].
  intros; cbn; eauto.
Qed.

Lemma exec_space_dot st s :
  exec [OptLit 32; CapStar dot] st s = Some [take_while dot (skip_space s)].
Proof.
  change (exec [OptLit 32; CapStar dot] st s) with
    (match (match s with
            | x :: s' => if x =? 32 then exec [CapStar dot] false s' else None
            | [] => None
            end) with
     | Some m => Some m
     | None => exec [CapStar dot] st s
     end).
  destruct s as [|x s']; [apply exec_dot|].
  unfold skip_space. destruct (x =? 32); rewrite exec_dot; reflexivity.
Qed.

Lemma exec_tail st s :
  exec [CapStar non_space; OptLit 32; CapStar dot] st s
  = Some [take_while non_space s;
          take_while dot (skip_space (drop_while non_space s))].
Proof.
  change (exec [CapStar non_space; OptLit 32; CapStar dot] st s) with
    ((fun '(cap, m) => cap :: m) <$>
       star non_space (exec [OptLit 32; CapStar dot]) st s).
  rewrite star_total.
  - rewrite exec_space_dot. reflexivity.
  - intros; rewrite exec_space_dot; eauto.
  - intros; now rewrite !exec_space_dot.
Qed.

Lemma exec_prefix p st s :
  exec ((Lit <$> p) ++ [CapStar non_space; OptLit 32; CapStar dot]) st s
  = if starts_with p s
    then Some [take_while non_space (drop (length p) s);
               take_while dot
                 (skip_space (drop_while non_space (drop (length p) s)))]
    else None.
Proof.
  revert st s. induction p as [|a p IH]; intros st s.
  - apply exec_tail.
  - destruct s as [|x s']; [reflexivity|].
    cbn [fmap list_fmap app exec starts_with length drop].
    rewrite (N.eqb_sym a x). destruct (x =? a); [apply IH | reflexivity].
Qed.

Lemma scan_Bol_later r s : scan (Bol :: r) false s = None.
Proof. induction s as [|x s IH]; [reflexivity | exact IH]. Qed.

(** The pattern captures exactly what [route] reads off the text. *)
Lemma js_match_prefixRegex prefix text :
  js_match text (prefixRegex prefix)
  = (fun ca => [fst ca; snd ca]) <$> route prefix text.
Proof.
  unfold js_match, prefixRegex, route.
  assert (E : exec (Bol :: (Lit <$> prefix) ++ [CapStar non_space; OptLit 32; CapStar dot])
                true text
              = exec ((Lit <$> prefix) ++ [CapStar non_space; OptLit 32; CapStar dot])
                  true text) by reflexivity.
  destruct text as [|x s]; cbn [scan]; rewrite E, exec_prefix;
    destruct (starts_with prefix _); try reflexivity.
  apply scan_Bol_later.
Qed.

(** ** Running the operations *)

Lemma world_eta w :
  {| events := events w; replies := replies w; errors := errors w;
     faults := faults w; next_id := next_id w; now := now w |} = w.
Proof. now destruct w. Qed.

Lemma add_events_nil w : add_events [] w = w.
Proof. unfold add_events. rewrite app_nil_r. apply world_eta. Qed.

Lemma add_events_app es es' w :
  add_events es' (add_events es w) = add_events (es ++ es') w.
Proof. unfold add_events; simpl. now rewrite app_assoc. Qed.

Lemma emit_run e w : emit e w = (Normal (), add_events [e] w).
Proof. reflexivity. Qed.

Lemma log_run tag args w : log tag args w = (Normal (), add_events [Log tag args] w).
Proof. reflexivity. Qed.

Lemma io_ok w : faults w = [] -> io w = (Normal (), w).
Proof. unfold io. now intros ->. Qed.

(** An awaited operation leaves the trace and the store alone, whatever
    its outcome. *)
Lemma io_quiet w :
  events (io w).2 = events w /\ replies (io w).2 = replies w
  /\ errors (io w).2 = errors w.
Proof. unfold io. destruct (faults w) as [|[e|] fs]; simpl; auto. Qed.

Lemma bind_run {A B} (m : M A) (f : A -> M B) w :
  (m ≫= f) w = match m w with
                | (Normal a, w') => f a w'
                | (Throw e, w') => (Throw e, w')
                end.
Proof. reflexivity. Qed.

(** ** The command router *)

Section Router.

Variable engine : Engine.
Variables (b : Conniebot) (message : Message).

Lemma command_no_match w :
  route (prefix (config b)) (content message) = None ->
  command engine b message w = (Normal (), w).
Proof.
  intros H. unfold command. now rewrite js_match_prefixRegex, H.
Qed.

(** Once the text is routed, [command] is decided by what the table
    holds under the token. *)
Lemma command_routed cmd args w :
  route (prefix (config b)) (content message) = Some (cmd, args) ->
  command engine b message w =
  match get_property engine (commands b) cmd with
  | None => (Normal (), w)
  | Some NotCallable => (Throw TypeError, w)
  | Some (Callable cb) =>
      (Normal (),
       add_events [Call cmd message (split_on 32 args);
                   handler_log cmd (cb message (split_on 32 args))] w)
  end.
Proof.
  intros H. unfold command. rewrite js_match_prefixRegex, H. simpl.
  destruct (get_property engine (commands b) cmd) as [[cb|]|]; try reflexivity.
  unfold try_catch. rewrite !bind_run, emit_run. unfold lift.
  destruct (cb message (split_on 32 args)) as [logItem|err];
    rewrite ?bind_run, log_run, add_events_app; reflexivity.
Qed.

Lemma route_not_prefixed :
  starts_with (prefix (config b)) (content message) = false ->
  route (prefix (config b)) (content message) = None.
Proof. unfold route. now intros ->. Qed.

End Router.

Lemma get_property_registered engine (table : ICommands) cmd cb :
  table !! cmd = Some cb -> get_property engine table cmd = Some (Callable cb).
Proof. unfold get_property. now intros ->. Qed.

Lemma get_property_unknown engine (table : ICommands) cmd :
  table !! cmd = None -> inherited engine (proto table) cmd = None ->
  get_property engine table cmd = None.
Proof. unfold get_property. now intros -> ->. Qed.

(** In terms of the callback a name was last assigned, an assignment is
    an insertion. *)
Lemma set_property_lookup key callback (table : ICommands) :
  set_property key callback table !! key = Some callback.
Proof.
  unfold set_property, lookup, ICommands_lookup.
  destruct (bool_decide (key = js "__proto__")); cbn [own proto];
    [reflexivity | apply lookup_insert_eq].
Qed.

Lemma set_property_other key callback (table : ICommands) name :
  key <> name -> set_property key callback table !! name = table !! name.
Proof.
  intros H. unfold set_property, lookup, ICommands_lookup.
  destruct (bool_decide_reflect (key = js "__proto__")) as [->|Hk]; cbn [own proto].
  - now rewrite (bool_decide_eq_false_2 (name = js "__proto__")) by congruence.
  - destruct (bool_decide (name = js "__proto__")); [reflexivity|].
    now apply lookup_insert_ne.
Qed.

Lemma register_lookup command callback b :
  commands (register command callback b) !! command = Some callback.
Proof. apply set_property_lookup. Qed.

Lemma take_while_all p s : forallb p s = true -> take_while p s = s.
Proof.
  induction s as [|c s IH]; simpl; [reflexivity|].
  destruct (p c); simpl; [intros H; now rewrite IH | discriminate].
Qed.

Lemma drop_while_all p s : forallb p s = true -> drop_while p s = [].
Proof.
  induction s as [|c s IH]; simpl; [reflexivity|].
  destruct (p c); simpl; [exact IH | discriminate].
Qed.

Lemma take_while_stop p s c rest :
  forallb p s = true -> p c = false -> take_while p (s ++ c :: rest) = s.
Proof.
  intros Hs Hc. induction s as [|x s IH]; simpl in *.
  - now rewrite Hc.
  - destruct (p x); simpl in *; [now rewrite IH | discriminate].
Qed.

Lemma drop_while_stop p s c rest :
  forallb p s = true -> p c = false -> drop_while p (s ++ c :: rest) = c :: rest.
Proof.
  intros Hs Hc. induction s as [|x s IH]; simpl in *.
  - now rewrite Hc.
  - destruct (p x); simpl in *; [now apply IH | discriminate].
Qed.

Lemma starts_with_app p s : starts_with p (p ++ s) = true.
Proof.
  induction p as [|a p IH]; simpl; [reflexivity|].
  now rewrite N.eqb_refl, IH.
Qed.

(** The bare command name after the prefix, with or without one space
    behind it, routes to that name and an empty argument text. *)
Lemma route_bare prefix cmd :
  forallb non_space cmd = true ->
  route prefix (prefix ++ cmd) = Some (cmd, [])
  /\ route prefix (prefix ++ cmd ++ js " ") = Some (cmd, []).
Proof.
  intros H. unfold route. rewrite !starts_with_app, !drop_app_length.
  split.
  - now rewrite take_while_all, drop_while_all.
  - simpl. now rewrite take_while_stop, drop_while_stop.
Qed.

(** A one-line command: the token, one space, the argument text. *)
Lemma route_line prefix cmd args :
  forallb non_space cmd = true ->
  forallb dot args = true ->
  route prefix (prefix ++ cmd ++ js " " ++ args) = Some (cmd, args).
Proof.
  intros Hc Ha. unfold route. rewrite starts_with_app, drop_app_length.
  change (js " ") with [32]. cbn [app].
  rewrite take_while_stop, drop_while_stop by (exact Hc || reflexivity).
  change (skip_space (32 :: args)) with args.
  now rewrite take_while_all.
Qed.

(** What follows the first line terminator is not part of the argument
    text. *)
Lemma route_first_line prefix cmd args c rest :
  forallb non_space cmd = true ->
  forallb dot args = true ->
  line_terminator c = true ->
  route prefix (prefix ++ cmd ++ js " " ++ args ++ c :: rest) = Some (cmd, args).
Proof.
  intros Hc Ha Hlt. unfold route. rewrite starts_with_app, drop_app_length.
  change (js " ") with [32]. cbn [app].
  rewrite take_while_stop, drop_while_stop by (exact Hc || reflexivity).
  change (skip_space (32 :: args ++ c :: rest)) with (args ++ c :: rest).
  rewrite take_while_stop; [reflexivity | exact Ha |].
  unfold dot. now rewrite Hlt.
Qed.

Lemma calls_app es es' : calls (es ++ es') = calls es ++ calls es'.
Proof. apply omap_app. Qed.

Lemma sends_app es es' : sends (es ++ es') = sends es ++ sends es'.
Proof. apply omap_app. Qed.

Lemma log_tags_app es es' : log_tags (es ++ es') = log_tags es ++ log_tags es'.
Proof. apply omap_app. Qed.

Lemma sends_handler_log cmd outcome : sends [handler_log cmd outcome] = [].
Proof. now destruct outcome. Qed.

Lemma calls_handler_log cmd outcome : calls [handler_log cmd outcome] = [].
Proof. now destruct outcome. Qed.

(** A registered command: one call of its callback, on the tokens of the
    argument text, and one log line; nothing is sent. *)
Lemma command_registered engine b message w cmd args cb :
  route (prefix (config b)) (content message) = Some (cmd, args) ->
  commands b !! cmd = Some cb ->
  exists w',
    command engine b message w = (Normal (), w')
    /\ events w' = events w ++ [Call cmd message (split_on 32 args);
                                handler_log cmd (cb message (split_on 32 args))]
    /\ calls (events w') = calls (events w) ++ [(cmd, split_on 32 args)]
    /\ sends (events w') = sends (events w).
Proof.
  intros Hr Hc. eexists. split.
  - rewrite (command_routed _ _ _ _ _ _ Hr), (get_property_registered _ _ _ _ Hc).
    reflexivity.
  - simpl. split; [reflexivity|].
    rewrite calls_app, sends_app.
    change [Call cmd message (split_on 32 args);
            handler_log cmd (cb message (split_on 32 args))]
      with ([Call cmd message (split_on 32 args)]
              ++ [handler_log cmd (cb message (split_on 32 args))]).
    rewrite calls_app, sends_app, calls_handler_log, sends_handler_log.
    simpl. now rewrite app_nil_r.
Qed.

(** C5 (as amended). A text that does not begin with the configured
    prefix, taken literally, or whose command token (the longest run of
    non-whitespace characters after the prefix) is neither registered nor
    the name of a member the table inherits through its prototype, leaves
    the world as it is: no reply, no call, no log, no error. When the token
    is registered, its callback is called exactly once, with the tokens
    obtained by splitting on single spaces what is left of the first line
    after the token and one optional space; a line is logged and nothing
    is sent. *)
Theorem command_routing engine b message w :
  (starts_with (prefix (config b)) (content message) = false ->
   command engine b message w = (Normal (), w))
  /\ (forall cmd args,
        route (prefix (config b)) (content message) = Some (cmd, args) ->
        commands b !! cmd = None ->
        inherited engine (proto (commands b)) cmd = None ->
        command engine b message w = (Normal (), w))
  /\ (forall cmd args cb,
        route (prefix (config b)) (content message) = Some (cmd, args) ->
        commands b !! cmd = Some cb ->
        exists w',
          command engine b message w = (Normal (), w')
          /\ events w' = events w ++ [Call cmd message (split_on 32 args);
                                      handler_log cmd (cb message (split_on 32 args))]
          /\ calls (events w') = calls (events w) ++ [(cmd, split_on 32 args)]
          /\ sends (events w') = sends (events w)).
Proof.
  split; [|split].
  - intros H. apply command_no_match, route_not_prefixed, H.
  - intros cmd args Hr Hown Hinh.
    rewrite (command_routed _ _ _ _ _ _ Hr), (get_property_unknown _ _ _ Hown Hinh).
    reflexivity.
  - intros cmd args cb. apply command_registered.
Qed.

(** The example of the specification: prefix [!], text
    [!greet alice bob]; and a name that is unknown also after a callback
    has become the prototype of the table. *)
Lemma command_routing_witness :
  calls (events (command sample_engine (sample_bot 5)
                   (message_from alice 50 "!greet alice bob") empty_world).2)
  = [(js "greet", [js "alice"; js "bob"])]
  /\ command sample_engine (sample_bot 5) (message_from alice 51 "greet alice") empty_world
     = (Normal (), empty_world)
  /\ command sample_engine (sample_bot 5) (message_from alice 52 "!wave alice") empty_world
     = (Normal (), empty_world)
  /\ command sample_engine (register (js "__proto__") greet (sample_bot 5))
       (message_from alice 53 "!wave alice") empty_world
     = (Normal (), empty_world).
Proof.
  pose proof (command_routing sample_engine (sample_bot 5)
                (message_from alice 50 "!greet alice bob") empty_world) as (_ & _ & H3).
  pose proof (command_routing sample_engine (sample_bot 5)
                (message_from alice 51 "greet alice") empty_world) as (H1 & _ & _).
  pose proof (command_routing sample_engine (sample_bot 5)
                (message_from alice 52 "!wave alice") empty_world) as (_ & H2 & _).
  pose proof (command_routing sample_engine (register (js "__proto__") greet (sample_bot 5))
                (message_from alice 53 "!wave alice") empty_world) as (_ & H4 & _).
  split; [|split; [|split]].
  - destruct (H3 (js "greet") (js "alice bob") greet eq_refl eq_refl)
      as (w' & E & _ & Ecalls & _).
    rewrite E. cbn [snd]. rewrite Ecalls. reflexivity.
  - apply H1. reflexivity.
  - apply (H2 (js "wave") (js "alice")); reflexivity.
  - apply (H4 (js "wave") (js "alice")); reflexivity.
Defined.

(** Where the claim as first stated fails. First, [__defineGetter__] is
    not registered, but it is a member every object inherits, so it passes
    the test [cmd in this.commands]: it is called on the message and the
    argument, rejects that argument, and a command error is logged.
    Second, the argument text ends with the first line: after
    [!greet alice], a line break and [bob], the callback gets the one token
    [alice], not the rest of the text. *)
Lemma command_routing_counterexample :
  let b := sample_bot 5 in
  let m1 := message_from alice 50 "!__defineGetter__ x" in
  let m2 := {| message_id := 51; content := js "!greet alice" ++ [NEWLINE] ++ js "bob";
               author := alice; channel := 7 |} in
  (commands b !! js "__defineGetter__" = None
   /\ log_tags (events (command sample_engine b m1 empty_world).2)
      = [js "error:command/__defineGetter__"]
   /\ existsb is_command_error (log_tags (events (command sample_engine b m1 empty_world).2)) = true)
  /\ (calls (events (command sample_engine b m2 empty_world).2) = [(js "greet", [js "alice"])]
      /\ split_on 32 (js "alice" ++ [NEWLINE] ++ js "bob")
         = [js "alice" ++ [NEWLINE] ++ js "bob"]).
Proof. vm_compute. repeat split; reflexivity. Qed.

(** An inherited member that is no function fails outside the [try]. *)
Example command_proto_throws :
  command sample_engine (sample_bot 5) (message_from alice 50 "!__proto__") empty_world
  = (Throw TypeError, empty_world).
Proof. reflexivity. Qed.

(** Once a callback is registered under [__proto__], the table inherits
    from that function: [call] is found and fails inside the [try], [name]
    is found and fails outside it, and [__proto__] reads as the callback. *)
Example command_after_proto_registration :
  let b := register (js "__proto__") greet (sample_bot 5) in
  own (commands b) = own (commands (sample_bot 5))
  /\ log_tags (events (command sample_engine b (message_from alice 50 "!call x")
                         empty_world).2)
     = [js "error:command/call"]
  /\ command sample_engine b (message_from alice 51 "!name") empty_world
     = (Throw TypeError, empty_world)
  /\ command sample_engine b (message_from alice 52 "!length") empty_world
     = (Throw TypeError, empty_world)
  /\ calls (events (command sample_engine b (message_from alice 53 "!__proto__ a b")
                      empty_world).2)
     = [(js "__proto__", [js "a"; js "b"])]
  /\ log_tags (events (command sample_engine b (message_from alice 54 "!greet a")
                         empty_world).2)
     = [js "success:command/greet"].
Proof. cbv zeta. repeat split; reflexivity. Qed.

(** C10. A registered command given as the prefix and the bare name (also
    with one space behind the name) has its callback called with exactly
    one argument token, the empty string, since the empty argument text
    splits into the one-element list holding the empty string. *)
Theorem command_bare_name_one_empty_token engine b message w cmd cb :
  commands b !! cmd = Some cb ->
  forallb non_space cmd = true ->
  content message = prefix (config b) ++ cmd
  \/ content message = prefix (config b) ++ cmd ++ js " " ->
  split_on 32 [] = [[]]
  /\ exists w',
      command engine b message w = (Normal (), w')
      /\ events w' = events w ++ [Call cmd message [[]]; handler_log cmd (cb message [[]])]
      /\ calls (events w') = calls (events w) ++ [(cmd, [[]])].
Proof.
  intros Hc Hcmd Htext. split; [reflexivity|].
  assert (Hr : route (prefix (config b)) (content message) = Some (cmd, [])).
  { destruct (route_bare (prefix (config b)) cmd Hcmd) as [H1 H2].
    destruct Htext as [-> | ->]; assumption. }
  destruct (command_registered engine b message w cmd [] cb Hr Hc) as (w' & E & Ev & Ecalls & _).
  exists w'. auto.
Qed.

Lemma command_bare_name_witness :
  calls (events (command sample_engine (sample_bot 5) (message_from alice 50 "!greet") empty_world).2)
  = [(js "greet", [[]])].
Proof.
  destruct (command_bare_name_one_empty_token sample_engine (sample_bot 5)
              (message_from alice 50 "!greet") empty_world (js "greet") greet
              eq_refl eq_refl (or_introl eq_refl))
    as (_ & w' & E & _ & Ecalls).
  rewrite E. cbn [snd]. rewrite Ecalls. reflexivity.
Defined.

(** ** Deletion on reaction *)

Ltac unfold_M :=
  unfold mbind, M_bind, mret, M_ret, try_catch, throw, lift, log, emit, effect, io.

Ltac trace_shape :=
  first [ exists []; rewrite app_nil_r; split; [reflexivity | auto]
        | eexists [_]; split; [reflexivity | auto]
        | eexists [_; _]; split; [rewrite <- app_assoc; reflexivity | auto] ].

(** Whatever the transport and the store do, the reaction adds nothing to
    the trace, or the transport deletion, or the transport deletion and
    then the deletion of the record. *)
Lemma reactDelete_trace b reaction user w :
  let mid := message_id (reaction_message reaction) in
  exists es,
    events (reactDeleteMessage b reaction user w).2 = events w ++ es
    /\ (es = [] \/ es = [MessageDelete mid]
        \/ es = [MessageDelete mid; DbDeleteMessage mid]).
Proof.
  intros mid. unfold reactDeleteMessage.
  destruct (bool_decide (Some (user_id user) = user_id <$> bot_user b)).
  { trace_shape. }
  destruct w as [ev rp er fs ni nw].
  unfold db_getMessageAuthor, message_delete, db_deleteMessage, stored_author.
  unfold_M.
  destruct fs as [|[e|] fs]; cbn;
    try trace_shape;
    destruct (bool_decide (Some (user_id user) ≠ _)); cbn; try trace_shape;
    destruct (bool_decide (emoji_name reaction ≠ _)); cbn; try trace_shape.
  all: destruct fs as [|[e'|] fs]; cbn; try trace_shape.
  all: destruct fs as [|[e''|] fs]; cbn; try trace_shape.
Qed.

Lemma authorized_iff b w reaction user :
  authorized b w reaction user = true <->
  Some (user_id user) ≠ user_id <$> bot_user b
  /\ stored_author w (reaction_message reaction) = Some (user_id user)
  /\ emoji_name reaction = deleteEmoji (config b).
Proof.
  unfold authorized.
  rewrite !andb_true_iff, negb_true_iff, bool_decide_eq_false, !bool_decide_eq_true.
  tauto.
Qed.

Lemma reactDelete_unauthorized b reaction user w :
  authorized b w reaction user = false ->
  events (reactDeleteMessage b reaction user w).2 = events w
  /\ replies (reactDeleteMessage b reaction user w).2 = replies w
  /\ (faults w = [] -> reactDeleteMessage b reaction user w = (Normal (), w)).
Proof.
  unfold authorized, reactDeleteMessage.
  destruct (bool_decide (Some (user_id user) = user_id <$> bot_user b)); [auto|].
  destruct w as [ev rp er fs ni nw].
  unfold db_getMessageAuthor, stored_author. unfold_M. cbn.
  intros H.
  assert (G : bool_decide
                (Some (user_id user)
                 ≠ origin_author_id <$>
                     List.find (record_of (message_id (reaction_message reaction))) rp)
              = true
              \/ bool_decide (emoji_name reaction ≠ deleteEmoji (config b)) = true).
  { apply andb_false_iff in H as [H|H]; [left|right];
      apply bool_decide_eq_false in H; apply bool_decide_eq_true; congruence. }
  destruct fs as [|[e|] fs]; cbn; auto.
  - destruct G as [-> | G]; [now auto|].
    destruct (bool_decide (Some (user_id user) ≠ _)); [now auto|].
    rewrite G. now auto.
  - repeat split; discriminate.
  - destruct G as [-> | G]; [repeat split; discriminate|].
    destruct (bool_decide (Some (user_id user) ≠ _)); [repeat split; discriminate|].
    rewrite G. repeat split; discriminate.
Qed.

Lemma reactDelete_authorized b reaction user w :
  authorized b w reaction user = true ->
  faults w = [] ->
  let mid := message_id (reaction_message reaction) in
  reactDeleteMessage b reaction user w
  = (Normal (),
     without_record mid (add_events [MessageDelete mid; DbDeleteMessage mid] w)).
Proof.
  intros H F mid. apply authorized_iff in H as (Ha & Hb & Hc).
  unfold reactDeleteMessage.
  rewrite (bool_decide_eq_false_2 _ Ha).
  destruct w as [ev rp er fs ni nw]. simpl in F. subst fs.
  unfold db_getMessageAuthor, message_delete, db_deleteMessage.
  unfold_M. cbn.
  unfold stored_author in Hb. cbn in Hb. rewrite Hb.
  rewrite bool_decide_eq_false_2 by (intros X; now apply X).
  rewrite bool_decide_eq_false_2 by (intros X; now apply X).
  cbn. unfold without_record, with_replies, add_events. cbn.
  now rewrite <- app_assoc.
Qed.

Lemma find_filter_negb {A} (p : A -> bool) l :
  List.find p (List.filter (fun x => negb (p x)) l) = None.
Proof.
  induction l as [|x l IH]; simpl; [reflexivity|].
  destruct (p x) eqn:E; simpl; [exact IH | now rewrite E].
Qed.

(** Once the record of a message is deleted, nobody is authorized for it. *)
Lemma authorized_without_record b w reaction user es :
  authorized b
    (without_record (message_id (reaction_message reaction)) (add_events es w))
    reaction user = false.
Proof.
  unfold authorized, stored_author, without_record. cbn.
  rewrite find_filter_negb. cbn.
  now rewrite andb_false_r.
Qed.

(** C2. The reply and its record are deleted exactly when the three
    guards hold: the reacting user is not the bot, the reacting user is
    the persisted origin author of the message, and the emoji is the
    configured one. A reaction that fails a guard deletes nothing,
    whatever the transport and the store do; and after the reaction, be it
    the deleting one, the same reaction again changes nothing and raises
    nothing. The equations are for a transport and a store that answer. *)
Theorem reaction_deletes_iff_authorized b reaction user w :
  let m := reaction_message reaction in
  let guards :=
    Some (user_id user) ≠ user_id <$> bot_user b
    /\ stored_author w m = Some (user_id user)
    /\ emoji_name reaction = deleteEmoji (config b) in
  let after := reactDeleteMessage b reaction user w in
  (~ guards -> events after.2 = events w /\ replies after.2 = replies w)
  /\ (faults w = [] ->
      (guards ->
       after = (Normal (),
                without_record (message_id m)
                  (add_events [MessageDelete (message_id m);
                               DbDeleteMessage (message_id m)] w)))
      /\ (~ guards -> after = (Normal (), w))
      /\ reactDeleteMessage b reaction user after.2 = (Normal (), after.2)).
Proof.
  intros m guards after.
  assert (Hno : ~ guards -> authorized b w reaction user = false).
  { intros Hg. destruct (authorized b w reaction user) eqn:E; [|reflexivity].
    exfalso. now apply Hg, authorized_iff. }
  split.
  - intros Hg. destruct (reactDelete_unauthorized b reaction user w (Hno Hg)) as (? & ? & _).
    auto.
  - intros F. split; [|split].
    + intros Hg. apply reactDelete_authorized; [now apply authorized_iff | exact F].
    + intros Hg. now apply (reactDelete_unauthorized b reaction user w (Hno Hg)).
    + subst after. destruct (authorized b w reaction user) eqn:E.
      * rewrite (reactDelete_authorized b reaction user w E F). cbn [snd].
        apply reactDelete_unauthorized; [apply authorized_without_record | exact F].
      * destruct (reactDelete_unauthorized b reaction user w E) as (_ & _ & H).
        rewrite (H F). cbn [snd]. exact (H F).
Qed.

Lemma reaction_deletes_witness :
  let w1 := (reactDeleteMessage (sample_bot 5) delete_reaction alice world_with_reply).2 in
  events w1 = [MessageDelete 100; DbDeleteMessage 100]
  /\ replies w1 = []
  /\ reactDeleteMessage (sample_bot 5) delete_reaction alice w1 = (Normal (), w1)
  /\ reactDeleteMessage (sample_bot 5) delete_reaction bob world_with_reply
     = (Normal (), world_with_reply).
Proof.
  pose proof (reaction_deletes_iff_authorized (sample_bot 5) delete_reaction alice
                world_with_reply) as (_ & H).
  destruct (H eq_refl) as (Hdel & _ & Hagain).
  pose proof (reaction_deletes_iff_authorized (sample_bot 5) delete_reaction bob
                world_with_reply) as (_ & H').
  destruct (H' eq_refl) as (_ & Hbob & _).
  assert (G : Some (user_id alice) ≠ user_id <$> bot_user (sample_bot 5)
              /\ stored_author world_with_reply (reaction_message delete_reaction)
                 = Some (user_id alice)
              /\ emoji_name delete_reaction = deleteEmoji (config (sample_bot 5))).
  { split; [discriminate | split; reflexivity]. }
  cbv zeta. split; [|split; [|split]].
  - rewrite (Hdel G). reflexivity.
  - rewrite (Hdel G). reflexivity.
  - exact Hagain.
  - apply Hbob. intros (_ & Hb & _). discriminate Hb.
Defined.

(** C7. When the three guards hold, the message reacted to is deleted
    from the transport first and the record from the store after it; and
    in no run, whatever fails, is a record deleted before the transport
    deletion. *)
Theorem transport_deletion_precedes_record_deletion b reaction user w :
  let m := reaction_message reaction in
  let after := reactDeleteMessage b reaction user w in
  (Some (user_id user) ≠ user_id <$> bot_user b ->
   stored_author w m = Some (user_id user) ->
   emoji_name reaction = deleteEmoji (config b) ->
   faults w = [] ->
   events after.2
   = events w ++ [MessageDelete (message_id m); DbDeleteMessage (message_id m)])
  /\ exists es,
      events after.2 = events w ++ es
      /\ (es = [] \/ es = [MessageDelete (message_id m)]
          \/ es = [MessageDelete (message_id m); DbDeleteMessage (message_id m)]).
Proof.
  intros m after. split.
  - intros Ha Hb Hc F. subst after.
    rewrite reactDelete_authorized; [reflexivity | | exact F].
    apply authorized_iff. auto.
  - apply reactDelete_trace.
Qed.

Lemma transport_deletion_first_witness :
  events (reactDeleteMessage (sample_bot 5) delete_reaction alice world_with_reply).2
  = [MessageDelete 100; DbDeleteMessage 100].
Proof.
  pose proof (transport_deletion_precedes_record_deletion (sample_bot 5)
                delete_reaction alice world_with_reply) as (H & _).
  apply H; [discriminate | reflexivity..].
Defined.

(** When the transport deletion fails, the record stays. *)
Example transport_deletion_fails :
  let w := with_faults [None; Some other_fault] world_with_reply in
  let after := reactDeleteMessage (sample_bot 5) delete_reaction alice w in
  after.1 = Throw other_fault /\ events after.2 = [] /\ replies after.2 = replies w.
Proof. vm_compute. auto. Qed.

(** ** Readiness, bot authors, crashes *)

Section Gate.

Variable formatObject : Reply -> option User -> IConniebotConfig -> Reply.
Variable x2iKeys : Completion X2IMatcher.
Variable engine : Engine.

(** The flag is raised by [startup] alone, and only once the keys are
    loaded. *)
Lemma startup_ready b w b' w' :
  startup x2iKeys b w = (Normal b', w') ->
  ready b' = true /\ exists keys, x2iKeys = Normal keys /\ x2i b' = Some keys.
Proof.
  unfold startup, loadKeys. unfold_M.
  destruct w as [ev rp er fs ni nw]. cbn.
  destruct x2iKeys as [keys|e0]; destruct fs as [|[e|] [|[e'|] fs]]; cbn;
    intros [= <- <-]; eauto.
Qed.

Lemma startup_fails b w :
  faults w = [Some other_fault] -> (startup x2iKeys b w).1 = Throw other_fault.
Proof.
  unfold startup, loadKeys. unfold_M.
  destruct w as [ev rp er fs ni nw]. cbn. now intros ->.
Qed.

(** Files that do not load make [startup] reject, also when every read
    has answered. *)
Lemma startup_load_fails b w e :
  x2iKeys = Throw e -> faults w = [] -> (startup x2iKeys b w).1 = Throw e.
Proof.
  unfold startup, loadKeys. unfold_M.
  destruct w as [ev rp er fs ni nw]. cbn. now intros -> ->.
Qed.

(** C3. While the ready flag is false, as the constructor leaves it, a
    message event and a reaction event are dropped: the handler returns
    at once and the world is what it was, so nothing is sent, recorded,
    called or logged. *)
Theorem not_ready_events_dropped b message reaction user w :
  ready b = false ->
  on_message formatObject engine b message w = (Normal (), w)
  /\ on_messageReactionAdd b reaction user w = (Normal (), w).
Proof.
  intros H. unfold on_message, on_messageReactionAdd. now rewrite H.
Qed.

(** C9. A message whose author is a bot, this bot included, is left
    alone: [parse] returns at once and the world is what it was, in the
    listener too, and in the earlier revision. *)
Theorem bot_author_ignored b message w :
  bot (author message) = true ->
  parse formatObject engine b message w = (Normal (), w)
  /\ on_message formatObject engine b message w = (Normal (), w)
  /\ (forall older_x2i c u older_command,
        Older.parse formatObject older_x2i c u older_command message w
        = (Normal (), w)).
Proof.
  intros H. unfold on_message, parse, Older.parse. rewrite H.
  destruct (ready b); auto.
Qed.

End Gate.

Lemma new_Conniebot_not_ready cfg u : ready (new_Conniebot cfg u) = false.
Proof. reflexivity. Qed.

Lemma not_ready_witness :
  on_message sample_format sample_engine (new_Conniebot (sample_config 5) (Some connie))
    (message_from alice 50 "x is x") empty_world = (Normal (), empty_world)
  /\ on_messageReactionAdd (new_Conniebot (sample_config 5) (Some connie))
       delete_reaction alice world_with_reply = (Normal (), world_with_reply).
Proof.
  split.
  - apply (not_ready_events_dropped sample_format sample_engine _ _ delete_reaction alice).
    reflexivity.
  - apply (not_ready_events_dropped sample_format sample_engine _ (message_from alice 50 "x")).
    reflexivity.
Defined.

Lemma bot_author_witness :
  parse sample_format sample_engine (sample_bot 5) (message_from connie 50 "x is x") empty_world
  = (Normal (), empty_world).
Proof.
  apply (bot_author_ignored sample_format sample_engine (sample_bot 5)
           (message_from connie 50 "x is x") empty_world).
  reflexivity.
Defined.

(** C6. A fault whose message holds ECONNRESET, given to the error
    listener, is logged as a warning and nothing else: the journal is what
    it was and the process goes on. Any other fault given to that
    listener, and any uncaught exception, is logged, written to the
    journal as one record, and then the process exits with status 1. The
    second part is for a store that answers. *)
Theorem crash_handling b err w :
  (is_connection_reset err = true ->
   on_error b err w
   = (Normal (), add_events [Log (js "warn") [LText (js "connection reset. oops!")]] w))
  /\ (faults w = [] ->
      let crashed :=
        (Normal (),
         with_errors (errors w ++ [error_record w err])
           (add_events [Log (js "error") [LErr err];
                        DbAddError (error_record w err);
                        Exit 1] w)) in
      (is_connection_reset err = false -> on_error b err w = crashed)
      /\ on_uncaughtException b err w = crashed).
Proof.
  split.
  - intros H. unfold on_error. now rewrite H.
  - intros F crashed.
    assert (E : panicResponsibly b err true w = crashed).
    { subst crashed. unfold panicResponsibly, db_addError, process_exit.
      destruct w as [ev rp er fs ni nw]. simpl in F. subst fs.
      unfold_M. cbn. unfold with_errors, add_events, error_record. cbn.
      now rewrite <- !app_assoc. }
    split; [|exact E].
    intros H. unfold on_error. now rewrite H.
Qed.

Lemma crash_handling_witness :
  (let w := (on_error (sample_bot 5) (Some connection_reset) empty_world).2 in
   errors w = [] /\ log_tags (events w) = [js "warn"])
  /\ (let w := (on_error (sample_bot 5) (Some other_fault) empty_world).2 in
      errors w = [error_record empty_world (Some other_fault)]
      /\ last (events w) = Some (Exit 1)).
Proof.
  pose proof (crash_handling (sample_bot 5) (Some connection_reset) empty_world)
    as (H1 & _).
  pose proof (crash_handling (sample_bot 5) (Some other_fault) empty_world)
    as (_ & H2).
  destruct (H2 eq_refl) as (H3 & _).
  cbv zeta. split.
  - rewrite (H1 eq_refl). split; reflexivity.
  - rewrite (H3 eq_refl). split; reflexivity.
Defined.

(** An uncaught ECONNRESET does not go through the error listener: it is
    journalled and the process exits. *)
Example uncaught_connection_reset :
  last (events (on_uncaughtException (sample_bot 5) (Some connection_reset)
                  empty_world).2) = Some (Exit 1).
Proof. reflexivity. Qed.

(** ** The transformation path *)

Lemma sends_send_events ch emoji i responses :
  sends (send_events ch emoji i responses) = responses.
Proof.
  revert i. induction responses as [|r rs IH]; intros i; [reflexivity|].
  cbn. f_equal. apply IH.
Qed.

Lemma x2i_only_app es es' : x2i_only (es ++ es') = x2i_only es && x2i_only es'.
Proof. apply forallb_app. Qed.

Lemma x2i_only_calls es : x2i_only es = true -> calls es = [].
Proof.
  induction es as [|e es IH]; [reflexivity|].
  cbn. intros [He Hes]%andb_true_iff.
  destruct e; try discriminate; cbn; auto.
Qed.

Lemma starts_with_weaken t a s :
  starts_with t a = true -> starts_with t (a ++ s) = true.
Proof.
  revert a. induction t as [|x t IH]; intros a; [reflexivity|].
  destruct a as [|y a]; [discriminate|]. cbn.
  intros [-> H]%andb_true_iff. now rewrite IH.
Qed.

Lemma includes_weaken a t s : includes a t = true -> includes (a ++ s) t = true.
Proof.
  induction a as [|x a IH]; cbn.
  - rewrite orb_false_r. destruct t; [|discriminate]. now destruct s.
  - intros [H|H]%orb_true_iff.
    + apply (starts_with_weaken _ _ s) in H. cbn [app] in H. now rewrite H.
    + rewrite (IH H). apply orb_true_r.
Qed.

Lemma command_event_handler_log cmd outcome :
  command_event (handler_log cmd outcome) = true.
Proof. destruct outcome; cbn -[includes js]; now apply includes_weaken. Qed.

(** Whatever it finds, the router leaves only its own events. *)
Lemma command_trace engine b message w :
  exists cs,
    events (command engine b message w).2 = events w ++ cs /\ command_only cs = true.
Proof.
  destruct (route (prefix (config b)) (content message)) as [[cmd args]|] eqn:R.
  - rewrite (command_routed _ _ _ _ _ _ R).
    destruct (get_property engine (commands b) cmd) as [[cb|]|].
    + eexists. split; [reflexivity|].
      cbn -[handler_log]. now rewrite command_event_handler_log.
    + exists []. cbn. now rewrite app_nil_r.
    + exists []. cbn. now rewrite app_nil_r.
  - rewrite (command_no_match _ _ _ _ R). exists []. cbn. now rewrite app_nil_r.
Qed.

(** What an awaited send comes to, by the outcome the transport has in
    store for it. *)
Lemma channel_send_run ch r w :
  channel_send ch r w
  = match faults w with
    | [] =>
        (Normal (next_id w),
         with_next_id (next_id w + 1) (add_events [Send ch r (next_id w)] w))
    | None :: fs =>
        (Normal (next_id w),
         with_next_id (next_id w + 1)
           (add_events [Send ch r (next_id w)] (with_faults fs w)))
    | Some e :: fs => (Throw e, with_faults fs w)
    end.
Proof.
  unfold channel_send. rewrite bind_run. unfold io.
  destruct (faults w) as [|[e|] fs]; reflexivity.
Qed.

Section Transformation.

Variable formatObject : Reply -> option User -> IConniebotConfig -> Reply.
Variable engine : Engine.
Variables (b : Conniebot) (message : Message).

(** With a transport that answers, every response is sent and tagged,
    in order. *)
Lemma send_all_ok responses acc w :
  faults w = [] ->
  exists ids,
    send_all b message responses acc w
    = (Normal (acc ++ ids),
       with_next_id (next_id w + N.of_nat (length responses))
         (add_events
            (send_events (channel message) (deleteEmoji (config b))
               (next_id w) responses) w)).
Proof.
  revert acc w. induction responses as [|r rs IH]; intros acc w F.
  - exists []. cbn. rewrite app_nil_r, N.add_0_r.
    unfold mret, M_ret. f_equal.
    destruct w; unfold with_next_id, add_events; cbn. now rewrite app_nil_r.
  - cbn [send_all]. unfold channel_send, react.
    rewrite !bind_run, (io_ok _ F). unfold effect at 1.
    rewrite bind_run, emit_run.
    match goal with |- context [send_all b message rs ?a ?w1] =>
      destruct (IH a w1) as [ids E]; [exact F|] end.
    exists (next_id w :: ids). rewrite E. f_equal.
    + now rewrite <- app_assoc.
    + destruct w as [ev rp er fs ni nw]. unfold with_next_id, add_events. cbn.
      f_equal; [now rewrite <- !app_assoc | lia].
Qed.

Lemma send_all_cons r rs acc w :
  send_all b message (r :: rs) acc w
  = match channel_send (channel message) r w with
    | (Normal i, w1) =>
        send_all b message rs (acc ++ [i])
          (add_events [React i (deleteEmoji (config b))] w1)
    | (Throw e, w1) => (Throw e, w1)
    end.
Proof.
  cbn [send_all]. rewrite bind_run.
  destruct (channel_send (channel message) r w) as [[i|e] w1]; reflexivity.
Qed.

(** Whatever the transport does, the loop leaves only sends and tags. *)
Lemma send_all_trace responses acc w :
  exists es,
    events (send_all b message responses acc w).2 = events w ++ es
    /\ x2i_only es = true
    /\ replies (send_all b message responses acc w).2 = replies w.
Proof.
  revert acc w. induction responses as [|r rs IH]; intros acc w.
  - exists []. cbn. now rewrite app_nil_r.
  - rewrite send_all_cons, channel_send_run.
    destruct (faults w) as [|[e|] fs].
    + match goal with |- context [send_all b message rs ?a ?w1] =>
        destruct (IH a w1) as (es & E & X & R) end.
      exists (Send (channel message) r (next_id w)
                :: React (next_id w) (deleteEmoji (config b)) :: es).
      rewrite E, R. cbn. rewrite <- !app_assoc. auto.
    + exists []. cbn. now rewrite app_nil_r.
    + match goal with |- context [send_all b message rs ?a ?w1] =>
        destruct (IH a w1) as (es & E & X & R) end.
      exists (Send (channel message) r (next_id w)
                :: React (next_id w) (deleteEmoji (config b)) :: es).
      rewrite E, R. cbn. rewrite <- !app_assoc. auto.
Qed.

Lemma x2iExec_unparsed w :
  x2i_results b message = [] ->
  x2iExec formatObject b message w = (Normal false, w).
Proof. intros H. unfold x2iExec. rewrite H. reflexivity. Qed.

Lemma x2i_responses_logCode results :
  (x2i_responses formatObject b results).2 = js "all"
  \/ (x2i_responses formatObject b results).2 = js "partial".
Proof. unfold x2i_responses. destruct (_ >? _)%Z; auto. Qed.

(** When the text is not empty [x2iExec] resolves with [true], whatever
    the transport and the store do, and leaves only events of the
    transformation path. *)
Lemma x2iExec_parsed w :
  x2i_results b message <> [] ->
  exists w' xs,
    x2iExec formatObject b message w = (Normal true, w')
    /\ events w' = events w ++ xs /\ x2i_only xs = true.
Proof.
  intros H. unfold x2iExec.
  rewrite (bool_decide_eq_false_2 _ H). cbn [negb].
  destruct (x2i_responses_logCode (x2i_results b message)) as [L|L];
    destruct (x2i_responses formatObject b (x2i_results b message))
      as [responses logCode]; cbn [snd] in L; subst logCode;
    rewrite bind_run; unfold try_catch; rewrite bind_run;
    destruct (send_all_trace responses [] w) as (es & E & X & _);
    destruct (send_all b message responses [] w) as [[ids|e] w1]; cbn [snd] in E.
  all: try (rewrite log_run; do 2 eexists; split; [reflexivity|];
            cbn [events add_events]; rewrite E, <- app_assoc;
            split; [reflexivity|]; rewrite x2i_only_app, X; reflexivity).
  all: unfold db_addMessage; rewrite !bind_run; unfold io;
    destruct (faults w1) as [|[e|] fs]; cbn.
  all: do 2 eexists; (split; [reflexivity|]); cbn; rewrite E, <- !app_assoc;
    (split; [reflexivity|]); rewrite x2i_only_app, X; reflexivity.
Qed.

(** With a transport and a store that answer, the parts sent are the
    responses. *)
Lemma x2iExec_ok w :
  x2i_results b message <> [] ->
  faults w = [] ->
  exists w',
    x2iExec formatObject b message w = (Normal true, w')
    /\ sends (events w')
       = sends (events w) ++ (x2i_responses formatObject b (x2i_results b message)).1.
Proof.
  intros H F. unfold x2iExec.
  rewrite (bool_decide_eq_false_2 _ H). cbn [negb].
  destruct (x2i_responses formatObject b (x2i_results b message))
    as [responses logCode].
  rewrite bind_run. unfold try_catch. rewrite bind_run.
  destruct (send_all_ok responses [] w F) as [ids ->].
  unfold db_addMessage. rewrite !bind_run, io_ok by exact F.
  unfold effect. rewrite log_run.
  eexists. split; [reflexivity|].
  cbn. rewrite !sends_app, sends_send_events. cbn. now rewrite !app_nil_r.
Qed.

Lemma slice0_take results n :
  (0 <= n)%Z -> (n < Z.of_nat (length results))%Z ->
  slice0 results n = take (Z.to_nat n) results
  /\ Z.of_nat (length (take (Z.to_nat n) results)) = n.
Proof.
  intros H0 Hn. unfold slice0.
  destruct (Z.ltb_spec n 0) as [?|_]; [lia|].
  rewrite Z.min_l by lia. split; [reflexivity|].
  rewrite length_take. lia.
Qed.

(** With a transport that answers, the earlier revision sends every
    response in turn. *)
Lemma older_send_all_ok responses w :
  faults w = [] ->
  exists w',
    Older.send_all message responses w = (Normal (), w')
    /\ sends (events w') = sends (events w) ++ responses
    /\ faults w' = [].
Proof.
  revert w. induction responses as [|r rs IH]; intros w F.
  - exists w. rewrite app_nil_r. auto.
  - cbn [Older.send_all]. rewrite bind_run, channel_send_run, F.
    match goal with |- context [Older.send_all message rs ?w1] =>
      destruct (IH w1) as (w' & -> & S & F'); [exact F|] end.
    exists w'. split; [reflexivity|]. split; [|exact F'].
    rewrite S. cbn. rewrite sends_app. cbn. now rewrite <- app_assoc.
Qed.

Lemma older_x2iExec_ok older_x2i c u w :
  older_x2i (content message) <> [] ->
  faults w = [] ->
  sends (events (Older.x2iExec formatObject older_x2i c u message w).2)
  = sends (events w)
    ++ (Older.x2i_responses formatObject c u (older_x2i (content message))).1.
Proof.
  intros H F. unfold Older.x2iExec.
  rewrite (bool_decide_eq_false_2 _ H). cbn [negb].
  destruct (Older.x2i_responses formatObject c u (older_x2i (content message)))
    as [responses logCode].
  rewrite bind_run. unfold try_catch. rewrite bind_run.
  destruct (older_send_all_ok responses w F) as (w' & -> & S & _).
  rewrite log_run. cbn. rewrite sends_app, S. cbn. now rewrite app_nil_r.
Qed.

(** C1 (as amended). With a transport and a store that answer, and for
    a rendered text that is not empty. In the current revision, with a
    limit that is not negative: when the text is longer than the limit,
    [x2iExec] sends exactly two parts, the first being the first L
    characters of the text followed by the ellipsis and the second the
    rendering of the timeout template; when it is not longer, exactly one
    part, the text. In the earlier revision, with a limit of at least 1,
    the same holds with the first L - 1 characters in the place of the
    first L: there it is the first part, ellipsis included, that has L
    characters. *)
Theorem x2iExec_truncation w :
  faults w = [] ->
  (let results := x2i_results b message in
   let L := timeoutChars (config b) in
   let after := x2iExec formatObject b message w in
   results <> [] -> (0 <= L)%Z ->
   ((Z.of_nat (length results) > L)%Z ->
    exists first,
      first `prefix_of` results
      /\ Z.of_nat (length first) = L
      /\ sends (events after.2)
         = sends (events w)
           ++ [Plain (first ++ [ELLIPSIS]);
               formatObject (timeoutMessage (config b)) (bot_user b) (config b)])
   /\ ((Z.of_nat (length results) <= L)%Z ->
       sends (events after.2) = sends (events w) ++ [Plain results]))
  /\ (forall older_x2i c u,
        let results := older_x2i (content message) in
        let L := timeoutChars c in
        let after := Older.x2iExec formatObject older_x2i c u message w in
        results <> [] -> (1 <= L)%Z ->
        ((Z.of_nat (length results) > L)%Z ->
         exists first,
           first `prefix_of` results
           /\ Z.of_nat (length first) = (L - 1)%Z
           /\ sends (events after.2)
              = sends (events w)
                ++ [Plain (first ++ [ELLIPSIS]); formatObject (timeoutMessage c) u c])
        /\ ((Z.of_nat (length results) <= L)%Z ->
            sends (events after.2) = sends (events w) ++ [Plain results])).
Proof.
  intros F. split.
  - intros results L after H HL.
    destruct (x2iExec_ok w H F) as (w' & E & S).
    subst after. rewrite E. cbn [snd]. rewrite S. clear E S.
    unfold x2i_responses. fold results. fold L. split; intros Hlen.
    + destruct (Z.gtb_spec (Z.of_nat (length results)) L) as [_|?]; [|lia].
      destruct (slice0_take results L HL) as [-> Hfirst]; [lia|].
      exists (take (Z.to_nat L) results). split; [|split]; auto.
      apply prefix_take.
    + destruct (Z.gtb_spec (Z.of_nat (length results)) L) as [?|_]; [lia|].
      reflexivity.
  - intros older_x2i c u results L after H HL.
    subst after. rewrite (older_x2iExec_ok older_x2i c u w H F).
    unfold Older.x2i_responses. fold results. fold L. split; intros Hlen.
    + destruct (Z.gtb_spec (Z.of_nat (length results)) L) as [_|?]; [|lia].
      destruct (slice0_take results (L - 1)) as [-> Hfirst]; [lia | lia |].
      exists (take (Z.to_nat (L - 1)) results). split; [|split]; auto.
      apply prefix_take.
    + destruct (Z.gtb_spec (Z.of_nat (length results)) L) as [?|_]; [lia|].
      reflexivity.
Qed.

(** C4. For a message of a user, the transformation attempt runs
    first and to its end, its sends and its record included; the router
    runs after it, from the world the attempt has left, and only when
    the rendered text is empty. When the text is not empty the router is
    not run at all, whatever has become of the sends: no callback is
    called. *)
Theorem parse_sequential_exclusive w :
  bot (author message) = false ->
  let w1 := (x2iExec formatObject b message w).2 in
  let after := parse formatObject engine b message w in
  exists xs cs,
    events w1 = events w ++ xs /\ x2i_only xs = true
    /\ events after.2 = events w1 ++ cs /\ command_only cs = true
    /\ (x2i_results b message <> [] ->
        after = (Normal (), w1) /\ cs = []
        /\ calls (events after.2) = calls (events w))
    /\ (x2i_results b message = [] ->
        xs = [] /\ w1 = w /\ after = command engine b message w1).
Proof.
  intros Hbot w1 after. subst w1 after. unfold parse. rewrite Hbot, bind_run.
  destruct (decide (x2i_results b message = [])) as [Hnil|Hsome].
  - rewrite (x2iExec_unparsed w Hnil). cbn [snd].
    destruct (command_trace engine b message w) as (cs & Ecs & Hcs).
    exists [], cs. rewrite app_nil_r. repeat split; auto; contradiction.
  - destruct (x2iExec_parsed w Hsome) as (w' & xs & -> & Exs & Hxs).
    unfold mret, M_ret. cbn [snd].
    exists xs, []. rewrite app_nil_r. repeat split; auto; try contradiction.
    cbn [snd]. rewrite Exs, calls_app, (x2i_only_calls _ Hxs). apply app_nil_r.
Qed.

End Transformation.

(** A text that both matches a rule and names a registered command is
    answered by the transformation path alone, also when the send fails;
    without a match the command runs. *)
Lemma parse_exclusive_witness :
  (let after := parse sample_format sample_engine (sample_bot 5) (message_from alice 50 "!greet x")
                  empty_world in
   sends (events after.2) = [Plain (js "ks")] /\ calls (events after.2) = [])
  /\ (let after := parse sample_format sample_engine (sample_bot 5) (message_from alice 50 "!greet x")
                     (with_faults [Some other_fault] empty_world) in
      log_tags (events after.2) = [js "error:x2i/all"] /\ calls (events after.2) = [])
  /\ (let after := parse sample_format sample_engine (sample_bot 5) (message_from alice 50 "!greet y")
                     empty_world in
      sends (events after.2) = [] /\ calls (events after.2) = [(js "greet", [js "y"])]).
Proof.
  destruct (parse_sequential_exclusive sample_format sample_engine (sample_bot 5)
              (message_from alice 50 "!greet x") empty_world eq_refl)
    as (xs1 & cs1 & _ & _ & _ & _ & H1 & _).
  destruct (parse_sequential_exclusive sample_format sample_engine (sample_bot 5)
              (message_from alice 50 "!greet x")
              (with_faults [Some other_fault] empty_world) eq_refl)
    as (xs2 & cs2 & _ & _ & _ & _ & H2 & _).
  destruct (parse_sequential_exclusive sample_format sample_engine (sample_bot 5)
              (message_from alice 50 "!greet y") empty_world eq_refl)
    as (xs3 & cs3 & _ & _ & _ & _ & _ & H3).
  cbv zeta. split; [|split].
  - destruct H1 as (-> & _ & _); [discriminate|]. split; reflexivity.
  - destruct H2 as (-> & _ & _); [discriminate|]. split; reflexivity.
  - destruct H3 as (_ & _ & ->); [reflexivity|]. split; reflexivity.
Defined.

(** A text of five characters under the limits 3 and 5, and in the
    earlier revision under the limit 5; there the matcher gives the
    rendered text itself, one match to a line. *)
Lemma x2iExec_truncation_witness :
  let older_x2i := fun text => join [NEWLINE] (search sample_matcher text) in
  sends (events (x2iExec sample_format (sample_bot 3) (message_from alice 50 "x is x")
                   empty_world).2)
  = [Plain (js "ks" ++ [NEWLINE; ELLIPSIS]); timeout_notice]
  /\ sends (events (x2iExec sample_format (sample_bot 5) (message_from alice 50 "x is x")
                      empty_world).2)
     = [Plain (js "ks" ++ [NEWLINE] ++ js "ks")]
  /\ sends (events (Older.x2iExec sample_format older_x2i (sample_config 5) (Some connie)
                      (message_from alice 50 "x is x") empty_world).2)
     = [Plain (js "ks" ++ [NEWLINE] ++ js "ks")].
Proof.
  intros older_x2i.
  assert (H3 : (0 <= timeoutChars (config (sample_bot 3)))%Z) by (simpl; lia).
  assert (H5 : (0 <= timeoutChars (config (sample_bot 5)))%Z) by (simpl; lia).
  assert (H1 : (1 <= timeoutChars (sample_config 5))%Z) by (simpl; lia).
  split; [|split].
  - destruct (x2iExec_truncation sample_format (sample_bot 3)
                (message_from alice 50 "x is x") empty_world eq_refl) as [Hnew _].
    destruct (Hnew ltac:(discriminate) H3) as [Hlong _].
    destruct Hlong as (first & [k Hk] & Hlen & ->); [simpl; lia|].
    destruct first as [|c1 [|c2 [|c3 [|c4 first]]]]; simpl in Hlen; try lia.
    simpl in Hk. injection Hk as <- <- <- _. reflexivity.
  - destruct (x2iExec_truncation sample_format (sample_bot 5)
                (message_from alice 50 "x is x") empty_world eq_refl) as [Hnew _].
    destruct (Hnew ltac:(discriminate) H5) as [_ Hshort].
    rewrite Hshort; [reflexivity | simpl; lia].
  - destruct (x2iExec_truncation sample_format (sample_bot 5)
                (message_from alice 50 "x is x") empty_world eq_refl) as [_ Hold].
    destruct (Hold older_x2i (sample_config 5) (Some connie) ltac:(discriminate) H1)
      as [_ Hshort].
    rewrite Hshort; [reflexivity | simpl; lia].
Defined.

(** Where the claim as first stated fails: in the earlier revision a text
    of five characters under the limit 3 is cut after two characters, not
    three; with the ellipsis the first part has three. *)
Lemma x2iExec_truncation_counterexample :
  let older_x2i := fun text => join [NEWLINE] (search sample_matcher text) in
  let m := message_from alice 50 "x is x" in
  let after := Older.x2iExec sample_format older_x2i (sample_config 3) (Some connie) m
                 empty_world in
  older_x2i (content m) = js "ks" ++ [NEWLINE] ++ js "ks"
  /\ timeoutChars (sample_config 3) = 3%Z
  /\ sends (events after.2) = [Plain (js "ks" ++ [ELLIPSIS]); timeout_notice]
  /\ (forall first second,
        length first = 3%nat ->
        sends (events after.2) <> [Plain (first ++ [ELLIPSIS]); second]).
Proof.
  cbv zeta. split; [reflexivity|]. split; [reflexivity|]. split; [reflexivity|].
  intros first second Hlen E. vm_compute in E.
  injection E as E _. apply (f_equal length) in E.
  rewrite length_app, Hlen in E. discriminate E.
Qed.

(** The earlier revision cut one character before the limit. *)
Example older_truncation :
  (Older.x2i_responses sample_format (sample_config 3) (Some connie) (js "abcdef")).1
  = [Plain (js "ab" ++ [ELLIPSIS]); timeout_notice].
Proof. reflexivity. Qed.

(** ** The plain rendering of a structured reply *)

Lemma split_on_cons sep s : exists tok toks, split_on sep s = tok :: toks.
Proof.
  induction s as [|c s (tok & toks & IH)]; cbn; [eauto|].
  destruct (c =? sep); [eauto|]. rewrite IH. eauto.
Qed.

Lemma join_cons_cons sep x y l : join sep (x :: y :: l) = x ++ sep ++ join sep (y :: l).
Proof. reflexivity. Qed.

Module EmbedFacts.
Import Embed.

(** The body is the field parts with a blank line between them. *)
Lemma handleBody_field_parts message headers :
  handleBody message headers = join [NEWLINE; NEWLINE] (field_parts message headers).
Proof. unfold handleBody, field_parts. now destruct (fields message). Qed.

(** The markup of [bold] is two asterisks on either side. *)
Lemma bold_starred s : bold s = starred s.
Proof. reflexivity. Qed.

(** [strip] puts the head lines one under the other, a line break, and
    the body. *)
Lemma strip_amended message headers :
  strip message headers = plain_rendering_amended message headers.
Proof.
  unfold strip, plain_rendering_amended, head_parts.
  rewrite handleBody_field_parts, bold_starred.
  destruct (title message) as [[|c t]|], (description message) as [[|c' d]|];
    cbn [truthy default present];
    try generalize (c :: t); try generalize (c' :: d); intros;
    cbn [fmap list_fmap concat app];
    rewrite <- ?app_assoc, ?app_nil_r; reflexivity.
Qed.

(** C8 (as amended). With the flag on, the structured message goes out
    as it is. With the flag off it goes out as the plain text that holds
    the title in bold and the description, each on a line of its own
    when it is there and the one directly under the other; then one more
    line break, also when there is no title and no description; then the
    field bodies, each under its name in bold when headers are kept, with
    a blank line between one field and the next. This is the rendering
    with all the parts separated by blank lines exactly when one of title
    and description is there, not both, and there is at least one
    field. *)
Theorem output_degrades_to_plain message headers :
  output true message headers = Structured message
  /\ output false message headers = Plain (strip message headers)
  /\ strip message headers = plain_rendering_amended message headers
  /\ (strip message headers = plain_rendering message headers
      <-> length (head_parts message) = 1%nat /\ field_parts message headers <> []).
Proof.
  split; [reflexivity|]. split; [reflexivity|]. split; [apply strip_amended|].
  rewrite strip_amended. unfold plain_rendering_amended, plain_rendering, head_parts, present.
  destruct (field_parts message headers) as [|f F];
    destruct (title message) as [[|c t]|], (description message) as [[|c' d]|];
    cbn [fmap list_fmap concat app length]; rewrite ?join_cons_cons; cbn [join];
    (split; [intros E | intros [Hn Hf]]);
    try discriminate Hn; try (now destruct Hf);
    try (exfalso; apply (f_equal length) in E; rewrite ?length_app in E;
         cbn [length] in E; rewrite ?length_app in E; cbn [length] in E; lia);
    try (split; [reflexivity | discriminate]);
    try (rewrite <- ?app_assoc; reflexivity).
Qed.

Example strip_sample :
  strip {| title := Some (js "Help"); description := Some (js "Commands");
           fields := Some [ {| name := js "x"; value := js "X-SAMPA" |};
                            {| name := js "z"; value := js "Z-SAMPA" |} ] |} true
  = js "**Help**" ++ [NEWLINE] ++ js "Commands" ++ [NEWLINE; NEWLINE]
    ++ js "**x**" ++ [NEWLINE] ++ js "X-SAMPA" ++ [NEWLINE; NEWLINE]
    ++ js "**z**" ++ [NEWLINE] ++ js "Z-SAMPA".
Proof. reflexivity. Qed.

(** An empty title counts as no title, and without title and
    description the text begins with the blank line. *)
Example strip_untitled :
  strip {| title := Some []; description := None;
           fields := Some [ {| name := js "x"; value := js "X-SAMPA" |} ] |} false
  = [NEWLINE] ++ js "X-SAMPA".
Proof. reflexivity. Qed.

End EmbedFacts.

(** Where the claim as first stated fails: with a title and a
    description the two lines follow each other without a blank line
    between them, and without both the text begins with a line break;
    without fields it ends with one. *)
Lemma output_degrades_counterexample :
  let m := {| title := Some (js "Help"); description := Some (js "Commands");
              fields := Some [ {| name := js "x"; value := js "X-SAMPA" |} ] |} in
  let untitled := {| title := None; description := None;
                     fields := Some [ {| name := js "x"; value := js "X-SAMPA" |} ] |} in
  let bare := {| title := Some (js "Help"); description := None; fields := None |} in
  (Embed.output false m true
   = Plain (js "**Help**" ++ [NEWLINE] ++ js "Commands" ++ [NEWLINE; NEWLINE]
            ++ js "**x**" ++ [NEWLINE] ++ js "X-SAMPA")
   /\ Embed.plain_rendering m true
      = js "**Help**" ++ [NEWLINE; NEWLINE] ++ js "Commands" ++ [NEWLINE; NEWLINE]
        ++ js "**x**" ++ [NEWLINE] ++ js "X-SAMPA"
   /\ Embed.strip m true <> Embed.plain_rendering m true)
  /\ (Embed.strip untitled false = [NEWLINE] ++ js "X-SAMPA"
      /\ Embed.plain_rendering untitled false = js "X-SAMPA")
  /\ (Embed.strip bare true = js "**Help**" ++ [NEWLINE; NEWLINE]
      /\ Embed.plain_rendering bare true = js "**Help**").
Proof. vm_compute. repeat split; try reflexivity. discriminate. Qed.

(** * Further properties *)

(** ** More on the pattern of the router *)

Lemma starts_with_drop p s : starts_with p s = true -> s = p ++ drop (length p) s.
Proof.
  revert s. induction p as [|a p IH]; intros s; [reflexivity|].
  destruct s as [|x s]; [discriminate|]. cbn.
  intros [->%N.eqb_eq H]%andb_true_iff. f_equal. now apply IH.
Qed.

Lemma take_drop_while p s : take_while p s ++ drop_while p s = s.
Proof.
  induction s as [|c s IH]; [reflexivity|]. cbn.
  destruct (p c); [cbn; now rewrite IH | reflexivity].
Qed.

Lemma forallb_take_while p s : forallb p (take_while p s) = true.
Proof.
  induction s as [|c s IH]; [reflexivity|]. cbn.
  destruct (p c) eqn:E; [cbn; now rewrite E | reflexivity].
Qed.

Lemma drop_while_head p s c rest : drop_while p s = c :: rest -> p c = false.
Proof.
  induction s as [|x s IH]; [discriminate|]. cbn.
  destruct (p x) eqn:E; [exact IH | now intros [= <- _]].
Qed.

(** X1. The pattern matches the texts that begin with the prefix, and no
    others; a match has two captures. *)
Theorem prefixRegex_matches_prefixed prefix text :
  (is_Some (js_match text (prefixRegex prefix)) <-> exists rest, text = prefix ++ rest)
  /\ (forall toks, js_match text (prefixRegex prefix) = Some toks -> length toks = 2%nat).
Proof.
  rewrite js_match_prefixRegex. unfold route. split.
  - split.
    + destruct (starts_with prefix text) eqn:E; [|intros [? [=]]].
      intros _. eexists. now apply starts_with_drop.
    + intros [rest ->]. rewrite starts_with_app. cbn. eauto.
  - intros toks. destruct (starts_with prefix text); cbn; [|discriminate].
    now intros [= <-].
Qed.

Lemma prefixRegex_matches_witness :
  js_match (js "?help") (prefixRegex (js "?")) = Some [js "help"; []]
  /\ js_match (js "help") (prefixRegex (js "?")) = None.
Proof.
  destruct (prefixRegex_matches_prefixed (js "?") (js "?help")) as [[_ Hyes] Hlen].
  destruct (prefixRegex_matches_prefixed (js "?") (js "help")) as [[Hno _] _].
  split.
  - destruct (Hyes (ex_intro _ (js "help") eq_refl)) as [toks E].
    pose proof (Hlen toks E) as L. rewrite E. vm_compute in E.
    now injection E as <-.
  - destruct (js_match (js "help") (prefixRegex (js "?"))) as [toks|] eqn:E;
      [|reflexivity].
    destruct (Hno (ex_intro _ toks eq_refl)) as [rest Hrest]. discriminate Hrest.
Defined.

(** X2. What a match says of the text: after the prefix comes the command
    token, without whitespace and as long as it can be; then one space, if
    there is one; then the arguments, on one line; and the arguments end
    with the text or before a line terminator. *)
Theorem prefixRegex_match_decomposes prefix text toks :
  js_match text (prefixRegex prefix) = Some toks ->
  exists cmd args sp rest,
    toks = [cmd; args]
    /\ text = prefix ++ cmd ++ sp ++ args ++ rest
    /\ forallb non_space cmd = true
    /\ forallb dot args = true
    /\ (sp = [] \/ sp = [32])
    /\ (forall c tl, sp ++ args ++ rest = c :: tl -> non_space c = false)
    /\ (sp = [] -> forall c tl, args ++ rest = c :: tl -> c <> 32)
    /\ (forall c tl, rest = c :: tl -> line_terminator c = true).
Proof.
  rewrite js_match_prefixRegex. unfold route.
  destruct (starts_with prefix text) eqn:E; [|discriminate].
  cbn. intros [= <-].
  set (body := drop (length prefix) text).
  set (cmd := take_while non_space body).
  set (after := drop_while non_space body).
  set (args := take_while dot (skip_space after)).
  set (rest := drop_while dot (skip_space after)).
  assert (Hsp : exists sp, after = sp ++ skip_space after
                           /\ (sp = [] \/ sp = [32])
                           /\ (sp = [] -> forall c tl, skip_space after = c :: tl -> c <> 32)).
  { destruct after as [|c tl]; [exists []; cbn; intuition discriminate|].
    cbn. destruct (N.eqb_spec c 32) as [->|Hc].
    - exists [32]. cbn. intuition discriminate.
    - exists []. cbn. repeat split; auto. intros _ c' tl' [= <- _]. exact Hc. }
  destruct Hsp as (sp & Hafter & Hsp & Hnosp).
  exists cmd, args, sp, rest. repeat split; auto.
  - rewrite (starts_with_drop _ _ E) at 1. fold body.
    rewrite <- (take_drop_while non_space body) at 1. fold cmd after.
    rewrite Hafter at 1.
    rewrite <- (take_drop_while dot (skip_space after)) at 1. reflexivity.
  - apply forallb_take_while.
  - apply forallb_take_while.
  - intros c tl H. unfold args, rest in H. rewrite take_drop_while, <- Hafter in H.
    now apply (drop_while_head _ _ _ _ H).
  - intros Hnil c tl H. unfold args, rest in H. rewrite take_drop_while in H.
    now apply (Hnosp Hnil c tl).
  - intros c tl H. apply (drop_while_head _ _ _ _) in H. unfold dot in H.
    now apply negb_false_iff in H.
Qed.

Lemma prefixRegex_match_decomposes_witness :
  exists cmd args sp rest,
    [js "greet"; js "alice bob"] = [cmd; args]
    /\ js "!greet alice bob" = js "!" ++ cmd ++ sp ++ args ++ rest
    /\ forallb non_space cmd = true
    /\ forallb dot args = true
    /\ (sp = [] \/ sp = [32])
    /\ (forall c tl, sp ++ args ++ rest = c :: tl -> non_space c = false)
    /\ (sp = [] -> forall c tl, args ++ rest = c :: tl -> c <> 32)
    /\ (forall c tl, rest = c :: tl -> line_terminator c = true).
Proof.
  exact (prefixRegex_match_decomposes (js "!") (js "!greet alice bob") _ eq_refl).
Defined.

(** ** The argument tokens *)

Lemma join_split sep s : join [sep] (split_on sep s) = s.
Proof.
  induction s as [|c s IH]; [reflexivity|]. cbn [split_on].
  destruct (N.eqb_spec c sep) as [->|Hc].
  - destruct (split_on_cons sep s) as (tok & toks & E). rewrite E in *.
    cbn. now rewrite <- IH.
  - destruct (split_on_cons sep s) as (tok & toks & E). rewrite E in *.
    destruct toks; cbn in *; now rewrite <- IH.
Qed.

Lemma split_on_no_sep sep s :
  forallb (forallb (fun c => negb (c =? sep))) (split_on sep s) = true.
Proof.
  induction s as [|c s IH]; [reflexivity|]. cbn [split_on].
  destruct (N.eqb_spec c sep) as [->|Hc]; [exact IH|].
  destruct (split_on_cons sep s) as (tok & toks & E). rewrite E in *.
  cbn in *. apply N.eqb_neq in Hc. now rewrite Hc.
Qed.

(** X3. The callback of a registered command gets at least one token, no
    token holds a space, and the tokens joined by spaces are the argument
    text the pattern captured: nothing of it is lost or added. *)
Theorem command_tokens_rejoin engine b message w cmd args cb :
  js_match (content message) (prefixRegex (prefix (config b))) = Some [cmd; args] ->
  commands b !! cmd = Some cb ->
  exists toks,
    calls (events (command engine b message w).2) = calls (events w) ++ [(cmd, toks)]
    /\ toks <> []
    /\ forallb no_space toks = true
    /\ join (js " ") toks = args.
Proof.
  intros Hm Hc. rewrite js_match_prefixRegex in Hm.
  destruct (route (prefix (config b)) (content message)) as [[cmd' args']|] eqn:R;
    [|discriminate].
  cbn in Hm. injection Hm as -> ->.
  destruct (command_registered engine b message w cmd args cb R Hc) as (w' & E & _ & Ecalls & _).
  exists (split_on 32 args). rewrite E. cbn [snd]. split; [exact Ecalls|].
  split; [|split].
  - destruct (split_on_cons 32 args) as (tok & toks & ->). discriminate.
  - apply split_on_no_sep.
  - apply join_split.
Qed.

Lemma command_tokens_rejoin_witness :
  exists toks,
    calls (events (command sample_engine (sample_bot 5) (message_from alice 50 "!greet a  b") empty_world).2)
    = calls (events empty_world) ++ [(js "greet", toks)]
    /\ toks <> []
    /\ forallb no_space toks = true
    /\ join (js " ") toks = js "a  b".
Proof.
  exact (command_tokens_rejoin sample_engine (sample_bot 5) (message_from alice 50 "!greet a  b")
           empty_world (js "greet") (js "a  b") greet eq_refl eq_refl).
Defined.

(** ** What the router does not do *)

Lemma command_effects engine b message w :
  exists cs, (command engine b message w).2 = add_events cs w /\ command_only cs = true.
Proof.
  destruct (route (prefix (config b)) (content message)) as [[cmd args]|] eqn:R.
  - rewrite (command_routed _ _ _ _ _ _ R).
    destruct (get_property engine (commands b) cmd) as [[cb|]|].
    + eexists. split; [reflexivity|]. unfold command_only. cbn [forallb].
      now rewrite command_event_handler_log.
    + exists []. now rewrite add_events_nil.
    + exists []. now rewrite add_events_nil.
  - rewrite (command_no_match _ _ _ _ R). exists []. now rewrite add_events_nil.
Qed.

(** X4. [command] awaits nothing of the transport or the store: it adds at
    most one call and one log line to the trace and leaves the rest of the
    world alone, whatever the text and the table. *)
Theorem command_changes_the_trace_only engine b message w :
  exists cs,
    (command engine b message w).2 = add_events cs w
    /\ command_only cs = true
    /\ sends cs = []
    /\ (length (calls cs) <= 1)%nat
    /\ (length cs <= 2)%nat.
Proof.
  destruct (route (prefix (config b)) (content message)) as [[cmd args]|] eqn:R.
  - rewrite (command_routed _ _ _ _ _ _ R).
    destruct (get_property engine (commands b) cmd) as [[cb|]|].
    + eexists. split; [reflexivity|].
      pose proof (command_event_handler_log cmd (cb message (split_on 32 args))) as H.
      unfold command_only. cbn [forallb command_event]. rewrite H.
      destruct (cb message (split_on 32 args)); cbn; auto.
    + exists []. rewrite add_events_nil. cbn. repeat split; lia.
    + exists []. rewrite add_events_nil. cbn. repeat split; lia.
  - rewrite (command_no_match _ _ _ _ R). exists []. rewrite add_events_nil. cbn.
    repeat split; lia.
Qed.

(** The inherited members that are no functions, by the prototype of
    the table. *)
Lemma inherited_NotCallable engine p cmd :
  inherited engine p cmd = Some NotCallable <->
  match p with
  | None => cmd = js "__proto__"
  | Some f =>
      cmd ∈ [js "length"; js "name"; js "arguments"; js "caller"]
      \/ (cmd = js "prototype" /\ has_prototype engine f = true)
  end.
Proof.
  unfold inherited, prototype_chain, function_object. split.
  - destruct (List.find _ _) as [[k v]|] eqn:F; [|discriminate].
    apply find_some in F as [Hin Hk]. cbn in Hk. apply bool_decide_eq_true in Hk.
    subst k. cbn [fmap option_fmap option_map snd]. intros [= ->].
    destruct p as [f|].
    + destruct (has_prototype engine f); cbn in Hin;
        repeat (destruct Hin as [Hin|Hin];
                [inversion Hin; subst; set_solver|]); destruct Hin.
    + cbn in Hin.
      repeat (destruct Hin as [Hin|Hin]; [now inversion Hin|]). destruct Hin.
  - destruct p as [f|].
    + intros [H|[-> Hc]].
      * destruct (has_prototype engine f);
          repeat (apply elem_of_cons in H as [->|H]; [reflexivity|]);
          now apply elem_of_nil in H.
      * rewrite Hc. reflexivity.
    + intros ->. reflexivity.
Qed.

(** X5. A callback that rejects does not make [command] reject: the error is
    logged under the command's name. [command] itself rejects exactly on
    a token that nothing is registered under and that names an inherited
    member that is no function: [__proto__] when the table has the
    prototype it was created with; [length], [name], [arguments],
    [caller], and [prototype] if the callback has one, when a callback has
    become the prototype. It then rejects with a TypeError and has done
    nothing. *)
Theorem command_contains_callback_faults engine b message w :
  (forall cmd args cb err,
     js_match (content message) (prefixRegex (prefix (config b))) = Some [cmd; args] ->
     commands b !! cmd = Some cb ->
     cb message (split_on 32 args) = Throw err ->
     command engine b message w
     = (Normal (),
        add_events [Call cmd message (split_on 32 args);
                    Log (js "error:command/" ++ cmd) [LErr (Some err)]] w))
  /\ ((exists e, (command engine b message w).1 = Throw e)
      <-> exists cmd args,
            js_match (content message) (prefixRegex (prefix (config b)))
            = Some [cmd; args]
            /\ commands b !! cmd = None
            /\ match proto (commands b) with
               | None => cmd = js "__proto__"
               | Some f =>
                   cmd ∈ [js "length"; js "name"; js "arguments"; js "caller"]
                   \/ (cmd = js "prototype" /\ has_prototype engine f = true)
               end)
  /\ (forall e,
        (command engine b message w).1 = Throw e ->
        command engine b message w = (Throw TypeError, w)).
Proof.
  split; [|split].
  - intros cmd args cb err Hm Hc Hcb. rewrite js_match_prefixRegex in Hm.
    destruct (route (prefix (config b)) (content message)) as [[cmd' args']|] eqn:R;
      [|discriminate].
    cbn in Hm. injection Hm as -> ->.
    rewrite (command_routed _ _ _ _ _ _ R), (get_property_registered _ _ _ _ Hc), Hcb.
    reflexivity.
  - rewrite js_match_prefixRegex.
    destruct (route (prefix (config b)) (content message)) as [[cmd args]|] eqn:R.
    + rewrite (command_routed _ _ _ _ _ _ R). unfold get_property. split.
      * intros [e He]. exists cmd, args. split; [reflexivity|].
        destruct (commands b !! cmd) as [cb|]; [discriminate|]. split; [reflexivity|].
        apply inherited_NotCallable.
        destruct (inherited engine (proto (commands b)) cmd) as [[f|]|];
          [discriminate | reflexivity | discriminate].
      * intros (cmd' & args' & [= <- <-] & Hown & Hinh).
        apply inherited_NotCallable in Hinh. rewrite Hown, Hinh. eauto.
    + rewrite (command_no_match _ _ _ _ R). split.
      * intros [e [=]].
      * intros (cmd & args & [=] & _).
  - intros e.
    destruct (route (prefix (config b)) (content message)) as [[cmd args]|] eqn:R.
    + rewrite (command_routed _ _ _ _ _ _ R).
      destruct (get_property engine (commands b) cmd) as [[f|]|];
        [discriminate | reflexivity | discriminate].
    + rewrite (command_no_match _ _ _ _ R). discriminate.
Qed.

Lemma command_contains_callback_faults_witness :
  command sample_engine (sample_bot 5) (message_from alice 50 "!fail now") empty_world
  = (Normal (),
     add_events [Call (js "fail") (message_from alice 50 "!fail now") [js "now"];
                 Log (js "error:command/fail")
                   [LErr (Some {| err_message := Some (js "boom") |})]] empty_world)
  /\ command sample_engine (register (js "__proto__") fail (sample_bot 5))
       (message_from alice 51 "!name") empty_world
     = (Throw TypeError, empty_world).
Proof.
  destruct (command_contains_callback_faults sample_engine (sample_bot 5)
              (message_from alice 50 "!fail now") empty_world) as (H1 & _ & _).
  destruct (command_contains_callback_faults sample_engine
              (register (js "__proto__") fail (sample_bot 5))
              (message_from alice 51 "!name") empty_world) as (_ & _ & H3).
  split.
  - exact (H1 (js "fail") (js "now") fail _ eq_refl eq_refl eq_refl).
  - exact (H3 TypeError eq_refl).
Defined.

(** ** Registration *)

Lemma register_other command callback b name :
  command <> name ->
  commands (register command callback b) !! name = commands b !! name.
Proof. apply set_property_other. Qed.

Lemma proto_lookup (table : ICommands) : table !! js "__proto__" = proto table.
Proof. reflexivity. Qed.

Lemma own_lookup (table : ICommands) name :
  name <> js "__proto__" -> table !! name = own table !! name.
Proof.
  intros H. unfold lookup at 1, ICommands_lookup.
  now rewrite bool_decide_eq_false_2.
Qed.

(** A table is known by the callback each name was last assigned, and
    by what it has of its own under [__proto__]. *)
Lemma table_eq (t t' : ICommands) :
  (forall name, t !! name = t' !! name) ->
  own t !! js "__proto__" = own t' !! js "__proto__" ->
  t = t'.
Proof.
  intros H Hp. destruct t as [o p], t' as [o' p'].
  assert (p = p') as <- by exact (H (js "__proto__")).
  f_equal. apply map_eq. intros name.
  destruct (decide (name = js "__proto__")) as [->|Hn]; [exact Hp|].
  specialize (H name). now rewrite !own_lookup in H.
Qed.

Lemma own_proto_registerCommands callbacks b :
  own (commands (registerCommands callbacks b)) !! js "__proto__"
  = own (commands b) !! js "__proto__".
Proof.
  unfold registerCommands. revert b.
  induction callbacks as [|[n cb] rest IH]; intros b; [reflexivity|].
  cbn [foldl fst snd]. rewrite IH. unfold register, set_property. cbn [commands].
  destruct (bool_decide_reflect (n = js "__proto__")) as [->|Hn]; [reflexivity|].
  cbn [own]. now apply lookup_insert_ne.
Qed.

Lemma registerCommands_lookup callbacks b name :
  commands (registerCommands callbacks b) !! name
  = match last_registered name callbacks with
    | Some cb => Some cb
    | None => commands b !! name
    end.
Proof.
  unfold registerCommands. revert b.
  induction callbacks as [|[n cb] rest IH]; intros b; [reflexivity|].
  cbn [foldl last_registered fst snd]. rewrite IH.
  destruct (last_registered name rest); [reflexivity|].
  destruct (bool_decide_reflect (n = name)) as [->|Hne].
  - apply register_lookup.
  - now apply register_other.
Qed.



Lemma last_registered_None name callbacks :
  last_registered name callbacks = None <-> name ∉ callbacks.*1.
Proof.
  induction callbacks as [|[n cb] rest IH]; cbn.
  - split; [intros _; apply not_elem_of_nil | reflexivity].
  - rewrite not_elem_of_cons. destruct (last_registered name rest) as [cb'|].
    + split; [discriminate|]. intros [_ H]. now apply IH in H.
    + destruct (bool_decide_reflect (n = name)) as [->|Hne].
      * split; [discriminate|]. now intros [H _].
      * split; [|reflexivity]. intros _. split; [congruence|]. now apply IH.
Qed.

Lemma last_registered_Some name cb callbacks :
  last_registered name callbacks = Some cb -> (name, cb) ∈ callbacks.
Proof.
  induction callbacks as [|[n c0] rest IH]; [discriminate|]. cbn.
  destruct (last_registered name rest) as [c1|].
  - intros [= ->]. right. now apply IH.
  - destruct (bool_decide_reflect (n = name)) as [->|]; [|discriminate].
    intros [= ->]. left.
Qed.

Lemma last_registered_NoDup name cb callbacks :
  NoDup (callbacks.*1) -> (name, cb) ∈ callbacks ->
  last_registered name callbacks = Some cb.
Proof.
  induction callbacks as [|[n cb0] rest IH]; [intros _ H; inversion H|].
  cbn. intros Hnd. apply NoDup_cons in Hnd as [Hn Hnd].
  intros [[= -> ->]|Hin]%elem_of_cons.
  - apply last_registered_None in Hn. rewrite Hn. now rewrite bool_decide_eq_true_2.
  - now rewrite (IH Hnd Hin).
Qed.





(** ** More on the transformation path *)

Section Replies.

Variable formatObject : Reply -> option User -> IConniebotConfig -> Reply.
Variables (b : Conniebot) (message : Message).

Lemma send_all_ids responses acc w :
  faults w = [] ->
  send_all b message responses acc w
  = (Normal (acc ++ ids_from (next_id w) (length responses)),
     with_next_id (next_id w + N.of_nat (length responses))
       (add_events
          (send_events (channel message) (deleteEmoji (config b))
             (next_id w) responses) w)).
Proof.
  revert acc w. induction responses as [|r rs IH]; intros acc w F.
  - cbn. rewrite app_nil_r, N.add_0_r. unfold mret, M_ret. f_equal.
    destruct w; unfold with_next_id, add_events; cbn. now rewrite app_nil_r.
  - rewrite send_all_cons, channel_send_run, F.
    rewrite IH by exact F. cbn [next_id with_next_id add_events length ids_from].
    f_equal; [now rewrite <- app_assoc|].
    destruct w as [ev rp er fs ni nw]. unfold with_next_id, add_events. cbn.
    f_equal; [now rewrite <- !app_assoc | lia].
Qed.

(** What the loop comes to, whatever the transport does: on success as
    many identifiers as responses; the store is not touched. *)
Lemma send_all_outcome responses acc w :
  let r := send_all b message responses acc w in
  replies r.2 = replies w /\ errors r.2 = errors w
  /\ (exists es, events r.2 = events w ++ es /\ x2i_only es = true
                 /\ (forall ids, r.1 = Normal ids -> sends es = responses))
  /\ (forall ids, r.1 = Normal ids ->
      length ids = (length acc + length responses)%nat).
Proof.
  revert acc w. induction responses as [|r rs IH]; intros acc w.
  - cbn. repeat split; auto.
    + exists []. rewrite app_nil_r. auto.
    + intros ids [= <-]. lia.
  - cbv zeta. rewrite send_all_cons, channel_send_run.
    destruct (faults w) as [|[e|] fs].
    + match goal with |- context [send_all b message rs ?a ?w1] =>
        destruct (IH a w1) as (R & Er & (es & E & X & S) & L) end.
      cbv zeta in *. rewrite R, Er. repeat split; auto.
      * exists (Send (channel message) r (next_id w)
                  :: React (next_id w) (deleteEmoji (config b)) :: es).
        rewrite E. cbn. rewrite <- !app_assoc. repeat split; auto.
        intros ids H. cbn. f_equal. exact (S ids H).
      * intros ids H. rewrite (L ids H), length_app. cbn. lia.
    + cbn. repeat split; auto; try discriminate.
      exists []. rewrite app_nil_r. repeat split; auto. discriminate.
    + match goal with |- context [send_all b message rs ?a ?w1] =>
        destruct (IH a w1) as (R & Er & (es & E & X & S) & L) end.
      cbv zeta in *. rewrite R, Er. repeat split; auto.
      * exists (Send (channel message) r (next_id w)
                  :: React (next_id w) (deleteEmoji (config b)) :: es).
        rewrite E. cbn. rewrite <- !app_assoc. repeat split; auto.
        intros ids H. cbn. f_equal. exact (S ids H).
      * intros ids H. rewrite (L ids H), length_app. cbn. lia.
Qed.

(** The store after [x2iExec], whatever has happened. *)
Lemma x2iExec_store w :
  errors (x2iExec formatObject b message w).2 = errors w
  /\ (replies (x2iExec formatObject b message w).2 = replies w
      \/ exists r, replies (x2iExec formatObject b message w).2 = replies w ++ [r]).
Proof.
  destruct (decide (x2i_results b message = [])) as [Hnil|Hsome].
  - rewrite (x2iExec_unparsed formatObject b message w Hnil). auto.
  - unfold x2iExec. rewrite (bool_decide_eq_false_2 _ Hsome). cbn [negb].
    destruct (x2i_responses formatObject b (x2i_results b message))
      as [responses logCode].
    rewrite bind_run. unfold try_catch. rewrite bind_run.
    destruct (send_all_outcome responses [] w) as (R & Er & _).
    destruct (send_all b message responses [] w) as [[ids|e] w1]; cbn [snd] in *.
    + unfold db_addMessage. rewrite !bind_run. unfold io.
      destruct (faults w1) as [|[e|] fs]; cbn; rewrite ?R; eauto.
    + cbn. auto.
Qed.

(** X9. [x2iExec] never rejects, whatever the transport and the store do: it
    resolves with [true] when the rendered text is not empty and with
    [false] when it is, and then it has done nothing. It never writes to
    the error journal. *)
Theorem x2iExec_always_resolves w :
  (x2iExec formatObject b message w).1
  = Normal (negb (bool_decide (x2i_results b message = [])))
  /\ errors (x2iExec formatObject b message w).2 = errors w
  /\ (x2i_results b message = [] -> (x2iExec formatObject b message w).2 = w).
Proof.
  destruct (decide (x2i_results b message = [])) as [Hnil|Hsome].
  - rewrite (x2iExec_unparsed _ _ _ w Hnil), Hnil. auto.
  - split; [|split]; [| |contradiction].
    + destruct (x2iExec_parsed formatObject b message w Hsome) as (w' & xs & -> & _).
      now rewrite (bool_decide_eq_false_2 _ Hsome).
    + unfold x2iExec. rewrite (bool_decide_eq_false_2 _ Hsome). cbn [negb].
      destruct (x2i_responses formatObject b (x2i_results b message))
        as [responses logCode].
      rewrite bind_run. unfold try_catch. rewrite bind_run.
      destruct (send_all_outcome responses [] w) as (_ & Er & _).
      destruct (send_all b message responses [] w) as [[ids|e] w1]; cbn [snd] in Er.
      * unfold db_addMessage. rewrite !bind_run. unfold io.
        destruct (faults w1) as [|[e|] fs]; cbn; exact Er.
      * cbn. exact Er.
Qed.

(** X10. A record is written for all the replies or not at all. When a send or
    the write itself fails, the store is as it was and the failure is
    logged; otherwise every response has been sent and one record, of the
    message, its author and as many reply identifiers as responses, has
    been added. The record is never without a reply. *)
Theorem x2iExec_record_all_or_nothing w :
  x2i_results b message <> [] ->
  let responses := (x2i_responses formatObject b (x2i_results b message)).1 in
  let logCode := (x2i_responses formatObject b (x2i_results b message)).2 in
  let w' := (x2iExec formatObject b message w).2 in
  (replies w' = replies w
   /\ exists e,
       last (events w')
       = Some (Log (js "error" ++ js ":x2i/" ++ logCode) [LSummary message; LErr (Some e)]))
  \/ (exists r,
        replies w' = replies w ++ [r]
        /\ origin_message_id r = message_id message
        /\ origin_channel_id r = channel message
        /\ origin_author_id r = user_id (author message)
        /\ length (reply_message_ids r) = length responses
        /\ reply_message_ids r <> []
        /\ sends (events w') = sends (events w) ++ responses
        /\ last (events w')
           = Some (Log (js "success" ++ js ":x2i/" ++ logCode) [LSummary message])).
Proof.
  intros H responses logCode w'. subst responses logCode w'. unfold x2iExec.
  rewrite (bool_decide_eq_false_2 _ H). cbn [negb].
  assert (Hnonempty : (x2i_responses formatObject b (x2i_results b message)).1 <> []).
  { unfold x2i_responses. destruct (_ >? _)%Z; discriminate. }
  destruct (x2i_responses formatObject b (x2i_results b message))
    as [responses logCode]. cbn [fst snd] in *.
  rewrite bind_run. unfold try_catch. rewrite bind_run.
  destruct (send_all_outcome responses [] w) as (R & _ & (es & E & _ & S) & L).
  destruct (send_all b message responses [] w) as [[ids|e] w1]; cbn [fst snd] in *.
  - unfold db_addMessage. rewrite !bind_run. unfold io.
    destruct (faults w1) as [|[e|] fs]; cbn.
    + right. eexists. rewrite R. split; [reflexivity|]. cbn.
      rewrite (L ids eq_refl). repeat split.
      * intros ->. cbn in L. specialize (L [] eq_refl). destruct responses; [auto|discriminate].
      * rewrite E, !sends_app, (S ids eq_refl). cbn. now rewrite !app_nil_r.
      * now rewrite last_snoc.
    + left. split; [exact R|]. exists e. now rewrite last_snoc.
    + right. eexists. rewrite R. split; [reflexivity|]. cbn.
      rewrite (L ids eq_refl). repeat split.
      * intros ->. cbn in L. specialize (L [] eq_refl). destruct responses; [auto|discriminate].
      * rewrite E, !sends_app, (S ids eq_refl). cbn. now rewrite !app_nil_r.
      * now rewrite last_snoc.
  - left. split; [exact R|]. exists e. rewrite log_run. cbn. now rewrite last_snoc.
Qed.

(** The run of [x2iExec] with a transport and a store that answer. *)
Lemma x2iExec_run w :
  x2i_results b message <> [] ->
  faults w = [] ->
  let responses := (x2i_responses formatObject b (x2i_results b message)).1 in
  let logCode := (x2i_responses formatObject b (x2i_results b message)).2 in
  let r := reply_record w message (length responses) in
  x2iExec formatObject b message w
  = (Normal true,
     add_events [Log (js "success" ++ js ":x2i/" ++ logCode) [LSummary message]]
       (with_replies (replies w ++ [r])
          (add_events [DbAddMessage r]
             (with_next_id (next_id w + N.of_nat (length responses))
                (add_events
                   (send_events (channel message) (deleteEmoji (config b))
                      (next_id w) responses) w))))).
Proof.
  intros H F responses logCode r. subst responses logCode r. unfold x2iExec.
  rewrite (bool_decide_eq_false_2 _ H). cbn [negb].
  destruct (x2i_responses formatObject b (x2i_results b message))
    as [responses logCode]. cbn [fst snd].
  rewrite bind_run. unfold try_catch. rewrite bind_run.
  rewrite (send_all_ids responses [] w F).
  unfold db_addMessage. rewrite !bind_run, io_ok by exact F.
  unfold effect. rewrite log_run. reflexivity.
Qed.

(** X11. With a transport and a store that answer, the trace of a reply is:
    each response sent and at once tagged with the delete emoji, in
    order; then the record, which lists the identifiers of the replies in
    the order they were sent; then the success line. *)
Theorem x2iExec_success_trace w :
  x2i_results b message <> [] ->
  faults w = [] ->
  let responses := (x2i_responses formatObject b (x2i_results b message)).1 in
  let logCode := (x2i_responses formatObject b (x2i_results b message)).2 in
  let r := reply_record w message (length responses) in
  exists w',
    x2iExec formatObject b message w = (Normal true, w')
    /\ events w'
       = events w
         ++ send_events (channel message) (deleteEmoji (config b)) (next_id w) responses
         ++ [DbAddMessage r; Log (js "success" ++ js ":x2i/" ++ logCode) [LSummary message]]
    /\ replies w' = replies w ++ [r]
    /\ errors w' = errors w
    /\ faults w' = []
    /\ next_id w' = next_id w + N.of_nat (length responses).
Proof.
  intros H F responses logCode r.
  rewrite (x2iExec_run w H F). fold responses logCode r.
  eexists. split; [reflexivity|]. cbn.
  split; [now rewrite <- !app_assoc|]. auto.
Qed.

(** X12. The length of the first part. With a limit that is not negative it
    is at most one more than the limit: the whole text when the text is
    within the limit, and otherwise the limit and the ellipsis. With a
    negative limit every text counts as too long and it is the end of the
    text that is cut: the part is the text without its last characters, as
    many as the limit is below zero, and the ellipsis. *)
Theorem x2i_responses_first_part results :
  let L := timeoutChars (config b) in
  let len := Z.of_nat (length results) in
  exists first rest,
    (x2i_responses formatObject b results).1 = Plain first :: rest
    /\ ((0 <= L)%Z -> (Z.of_nat (length first) <= L + 1)%Z)
    /\ ((0 <= L < len)%Z -> (Z.of_nat (length first) = L + 1)%Z /\ length rest = 1%nat)
    /\ ((len <= L)%Z -> first = results /\ rest = [])
    /\ ((L < 0)%Z ->
        first = take (Z.to_nat (len + L)) results ++ [ELLIPSIS] /\ length rest = 1%nat).
Proof.
  intros L len. unfold x2i_responses. fold L. fold len.
  destruct (Z.gtb_spec len L) as [Hlong|Hshort].
  - eexists _, _. split; [reflexivity|]. cbn [length].
    rewrite length_app. cbn [length]. unfold slice0. fold len.
    destruct (Z.ltb_spec L 0) as [Hneg|Hpos].
    + repeat split; try lia. f_equal. f_equal. lia.
    + rewrite length_take. repeat split; try lia.
  - eexists _, _. split; [reflexivity|]. fold len. repeat split; try lia.
Qed.

End Replies.

Lemma x2iExec_always_resolves_witness :
  (x2iExec sample_format (sample_bot 5) (message_from alice 50 "hello") empty_world).2
  = empty_world.
Proof.
  apply (x2iExec_always_resolves sample_format (sample_bot 5)
           (message_from alice 50 "hello") empty_world).
  reflexivity.
Defined.

Lemma x2iExec_record_witness :
  let w := with_faults [None; Some other_fault] empty_world in
  let w' := (x2iExec sample_format (sample_bot 3) (message_from alice 50 "x is x") w).2 in
  replies w' = [] /\ sends (events w') = [Plain (js "ks" ++ [NEWLINE; ELLIPSIS])].
Proof.
  cbv zeta.
  destruct (x2iExec_record_all_or_nothing sample_format (sample_bot 3)
              (message_from alice 50 "x is x")
              (with_faults [None; Some other_fault] empty_world) ltac:(discriminate))
    as [[R _] | (r & R & _)].
  - split; [exact R | reflexivity].
  - vm_compute in R. destruct r; discriminate R.
Defined.

Lemma x2iExec_success_trace_witness :
  exists w',
    x2iExec sample_format (sample_bot 3) (message_from alice 50 "x is x") empty_world
    = (Normal true, w')
    /\ events w'
       = [Send 7 (Plain (js "ks" ++ [NEWLINE; ELLIPSIS])) 100; React 100 (js "X");
          Send 7 timeout_notice 101; React 101 (js "X");
          DbAddMessage (reply_record empty_world (message_from alice 50 "x is x") 2);
          Log (js "success:x2i/partial") [LSummary (message_from alice 50 "x is x")]]
    /\ replies w' = [reply_record empty_world (message_from alice 50 "x is x") 2].
Proof.
  destruct (x2iExec_success_trace sample_format (sample_bot 3)
              (message_from alice 50 "x is x") empty_world ltac:(discriminate) eq_refl)
    as (w' & E & Ev & R & _).
  exists w'. split; [exact E|]. split; [exact Ev | exact R].
Defined.

Lemma x2i_responses_first_part_witness :
  exists first rest,
    (x2i_responses sample_format (sample_bot 3) (js "abcdef")).1 = Plain first :: rest
    /\ Z.of_nat (length first) = 4%Z.
Proof.
  destruct (x2i_responses_first_part sample_format (sample_bot 3) (js "abcdef"))
    as (first & rest & E & _ & H & _).
  exists first, rest. split; [exact E|]. apply H. simpl. lia.
Defined.

(** ** Failing deletions *)

Lemma authorized_same_store b w w' reaction user :
  replies w' = replies w ->
  authorized b w' reaction user = authorized b w reaction user.
Proof. intros H. unfold authorized, stored_author. now rewrite H. Qed.

(** X13. A deletion that fails midway keeps the record, so the reaction still
    counts when it comes again. When the transport refuses the deletion
    nothing has happened; when the store refuses, the message is gone and
    its record is left behind. In both cases the author is still
    authorized, and a repeated reaction starts with the transport
    deletion again. *)
Theorem failed_deletion_keeps_the_record b reaction user w :
  authorized b w reaction user = true ->
  let mid := message_id (reaction_message reaction) in
  (forall e fs,
     faults w = None :: Some e :: fs ->
     reactDeleteMessage b reaction user w = (Throw e, with_faults fs w))
  /\ (forall e fs,
        faults w = None :: None :: Some e :: fs ->
        reactDeleteMessage b reaction user w
        = (Throw e, add_events [MessageDelete mid] (with_faults fs w)))
  /\ (forall w',
        replies w' = replies w -> faults w' = [] ->
        reactDeleteMessage b reaction user w'
        = (Normal (),
           without_record mid
             (add_events [MessageDelete mid; DbDeleteMessage mid] w'))).
Proof.
  intros H mid. split; [|split].
  - intros e fs F. apply authorized_iff in H as (Ha & Hb & Hc).
    unfold reactDeleteMessage. rewrite (bool_decide_eq_false_2 _ Ha).
    destruct w as [ev rp er fs0 ni nw]. cbn in F. subst fs0.
    unfold db_getMessageAuthor, message_delete, db_deleteMessage. unfold_M. cbn.
    unfold stored_author in Hb. cbn in Hb. rewrite Hb.
    rewrite bool_decide_eq_false_2 by (intros X; now apply X).
    rewrite bool_decide_eq_false_2 by (intros X; now apply X).
    reflexivity.
  - intros e fs F. apply authorized_iff in H as (Ha & Hb & Hc).
    unfold reactDeleteMessage. rewrite (bool_decide_eq_false_2 _ Ha).
    destruct w as [ev rp er fs0 ni nw]. cbn in F. subst fs0.
    unfold db_getMessageAuthor, message_delete, db_deleteMessage. unfold_M. cbn.
    unfold stored_author in Hb. cbn in Hb. rewrite Hb.
    rewrite bool_decide_eq_false_2 by (intros X; now apply X).
    rewrite bool_decide_eq_false_2 by (intros X; now apply X).
    reflexivity.
  - intros w' R F. apply reactDelete_authorized; [|exact F].
    now rewrite (authorized_same_store b w w' reaction user R).
Qed.

Lemma failed_deletion_witness :
  let w := with_faults [None; Some other_fault] world_with_reply in
  reactDeleteMessage (sample_bot 5) delete_reaction alice w
  = (Throw other_fault, with_faults [] w)
  /\ reactDeleteMessage (sample_bot 5) delete_reaction alice (with_faults [] w)
     = (Normal (),
        without_record 100
          (add_events [MessageDelete 100; DbDeleteMessage 100] (with_faults [] w))).
Proof.
  cbv zeta.
  destruct (failed_deletion_keeps_the_record (sample_bot 5) delete_reaction alice
              (with_faults [None; Some other_fault] world_with_reply) eq_refl)
    as (H1 & _ & H3).
  split.
  - exact (H1 other_fault [] eq_refl).
  - exact (H3 (with_faults [] (with_faults [None; Some other_fault] world_with_reply))
             eq_refl eq_refl).
Defined.

(** ** The crash handler *)

(** X14. [panicResponsibly] logs the fault first. The process exits only after
    the fault is in the journal, and only when asked to: when the store
    refuses the record the function rejects and the process goes on; with
    [exit] false the record is written and the process goes on. *)
Theorem panicResponsibly_journals_before_exit b err exit w :
  let r := panicResponsibly b err exit w in
  let logged := Log (js "error") [LErr err] in
  (exists e, r.1 = Throw e /\ events r.2 = events w ++ [logged]
             /\ errors r.2 = errors w)
  \/ (r.1 = Normal ()
      /\ errors r.2 = errors w ++ [error_record w err]
      /\ events r.2
         = events w ++ [logged; DbAddError (error_record w err)]
                    ++ (if exit then [Exit 1] else [])).
Proof.
  unfold panicResponsibly, db_addError, process_exit.
  destruct w as [ev rp er fs ni nw]. unfold_M.
  destruct fs as [|[e|] fs]; cbn.
  - right. destruct exit; cbn; rewrite <- ?app_assoc; auto.
  - left. eauto.
  - right. destruct exit; cbn; rewrite <- ?app_assoc; auto.
Qed.

(** ** Connection resets *)

Lemma starts_with_iff t s : starts_with t s = true <-> exists rest, s = t ++ rest.
Proof.
  split.
  - intros H. eexists. now apply starts_with_drop.
  - intros [rest ->]. apply starts_with_app.
Qed.

Lemma includes_iff s t :
  includes s t = true <-> exists before after, s = before ++ t ++ after.
Proof.
  induction s as [|x s IH]; cbn.
  - rewrite orb_false_r, starts_with_iff. split.
    + intros [rest E]. exists [], rest. exact E.
    + intros (before & after & E). symmetry in E.
      apply app_eq_nil in E as [-> E]. apply app_eq_nil in E as [-> ->]. now exists [].
  - rewrite orb_true_iff, starts_with_iff, IH. split.
    + intros [[rest E] | (before & after & E)].
      * exists [], rest. exact E.
      * exists (x :: before), after. now rewrite E.
    + intros (before & after & E). destruct before as [|y before].
      * left. now exists after.
      * right. injection E as <- E. now exists before, after.
Qed.

Lemma snoc_neq {A} (l : list A) x : l ++ [x] <> l.
Proof.
  intros H. apply (f_equal length) in H. rewrite length_app in H. cbn in H. lia.
Qed.

(** X15. With a store that answers, the error listener leaves the journal as
    it is exactly for the faults whose message holds ECONNRESET somewhere;
    a fault without a message, or with another one, is journalled. *)
Theorem on_error_spares_connection_resets b err w :
  faults w = [] ->
  (errors (on_error b err w).2 = errors w
   <-> exists e before after,
        err = Some e /\ err_message e = Some (before ++ js "ECONNRESET" ++ after)).
Proof.
  intros F. unfold on_error.
  assert (Hreset : is_connection_reset err = true
                   <-> exists e before after,
                        err = Some e
                        /\ err_message e = Some (before ++ js "ECONNRESET" ++ after)).
  { unfold is_connection_reset. destruct err as [[[msg|]]|]; cbn.
    - split.
      + intros [_ H]%andb_true_iff. apply includes_iff in H as (before & after & ->).
        eauto.
      + intros (e & before & after & [= <-] & [= ->]). apply andb_true_iff. split.
        * now destruct before.
        * apply includes_iff. eauto.
    - split; [discriminate|]. intros (e & ? & ? & [= <-] & [=]).
    - split; [discriminate|]. intros (e & ? & ? & [=] & _). }
  destruct (is_connection_reset err) eqn:E.
  - rewrite log_run. cbn. split; [intros _; now apply Hreset | reflexivity].
  - unfold panicResponsibly, db_addError, process_exit.
    destruct w as [ev rp er fs ni nw]. cbn in F. subst fs. unfold_M. cbn. split.
    + intros H. now apply snoc_neq in H.
    + intros H. apply Hreset in H. discriminate H.
Qed.

Lemma on_error_spares_witness :
  errors (on_error (sample_bot 5) (Some connection_reset) empty_world).2
  = errors empty_world.
Proof.
  apply (on_error_spares_connection_resets (sample_bot 5) (Some connection_reset)
           empty_world eq_refl).
  exists connection_reset, (js "read "), []. split; reflexivity.
Defined.

(** ** The states of the bot *)

Section Lifecycle.

Variable keys : X2IMatcher.
Variable cfg : IConniebotConfig.
Variable u : option User.

(** X16. The settings never change, and the ready flag and the matcher go
    together: a bot that is ready has the loaded keys, a bot that is not
    has none. So a message is never matched without the keys, and never
    against other keys than the loaded ones. *)
Theorem ready_with_keys b :
  reachable keys cfg u b ->
  config b = cfg /\ bot_user b = u
  /\ x2i b = (if ready b then Some keys else None)
  /\ (forall message,
      x2i_results b message
      = if ready b then join [NEWLINE] (search keys (content message)) else []).
Proof.
  intros H.
  assert (I : config b = cfg /\ bot_user b = u
              /\ x2i b = if ready b then Some keys else None).
  { induction H as [|c cb b H IH|b w b' w' H IH S].
    - cbn. auto.
    - cbn. exact IH.
    - destruct IH as (Hc & Hu & _).
      destruct (startup_ready (Normal keys) b w b' w' S) as (-> & k & [= <-] & ->).
      unfold startup, loadKeys in S. revert S. unfold_M.
      destruct w as [ev rp er fs ni nw]. cbn.
      destruct fs as [|[e|] [|[e'|] fs]]; cbn; intros [= <- _]; cbn; auto. }
  destruct I as (Hc & Hu & Hx). repeat split; auto.
  intros message. unfold x2i_results. rewrite Hx. now destruct (ready b).
Qed.

End Lifecycle.

Lemma ready_with_keys_witness :
  let b0 := register (js "greet") greet (new_Conniebot (sample_config 5) (Some connie)) in
  let b1 := {| bot_user := bot_user b0; config := config b0; commands := commands b0;
               x2i := Some sample_matcher; ready := true |} in
  (startup (Normal sample_matcher) b0 empty_world).1 = Normal b1
  /\ x2i_results b1 (message_from alice 50 "x") = js "ks".
Proof.
  intros b0 b1.
  assert (S : startup (Normal sample_matcher) b0 empty_world
              = (Normal b1, (startup (Normal sample_matcher) b0 empty_world).2))
    by reflexivity.
  split; [now rewrite S|].
  destruct (ready_with_keys sample_matcher (sample_config 5) (Some connie) b1)
    as (_ & _ & _ & H).
  - eapply reach_startup; [apply reach_register, reach_new | exact S].
  - rewrite H. reflexivity.
Defined.

Lemma x2i_only_not_destructive es : x2i_only es = true -> existsb destructive es = false.
Proof.
  induction es as [|e es IH]; [reflexivity|]. cbn.
  intros [He Hes]%andb_true_iff. rewrite (IH Hes).
  destruct e; try discriminate; reflexivity.
Qed.

Lemma command_only_not_destructive es :
  command_only es = true -> existsb destructive es = false.
Proof.
  induction es as [|e es IH]; [reflexivity|]. cbn.
  intros [He Hes]%andb_true_iff. rewrite (IH Hes).
  destruct e; try discriminate; reflexivity.
Qed.

Section Roundtrip.

Variable formatObject : Reply -> option User -> IConniebotConfig -> Reply.
Variable engine : Engine.
Variables (b : Conniebot) (message : Message).

Lemma record_of_reply_record w n i :
  In i (ids_from (next_id w) n) -> record_of i (reply_record w message n) = true.
Proof.
  intros H. unfold record_of, reply_record. cbn.
  apply orb_true_iff. right. apply existsb_exists. exists i. split; [exact H|].
  apply N.eqb_refl.
Qed.

Lemma find_fresh {A} (p : A -> bool) l x :
  forallb (fun y => negb (p y)) l = true -> p x = true ->
  List.find p (l ++ [x]) = Some x
  /\ List.filter (fun y => negb (p y)) (l ++ [x]) = l.
Proof.
  intros Hl Hx. induction l as [|y l IH]; cbn in *.
  - now rewrite Hx.
  - apply andb_true_iff in Hl as [Hy Hl]. destruct (IH Hl) as [-> ->].
    rewrite Hy. apply negb_true_iff in Hy. now rewrite Hy.
Qed.

(** X17. A reply and its deletion undo each other in the store. After
    [x2iExec] has answered a message, the delete reaction of the author of
    that message on any of the replies deletes that reply and the record,
    and the table of records is what it was before the answer. *)
Theorem reply_then_delete_restores_the_store w reaction :
  x2i_results b message <> [] ->
  faults w = [] ->
  Some (user_id (author message)) ≠ user_id <$> bot_user b ->
  let n := length (x2i_responses formatObject b (x2i_results b message)).1 in
  let mid := message_id (reaction_message reaction) in
  In mid (ids_from (next_id w) n) ->
  forallb (fun r => negb (record_of mid r)) (replies w) = true ->
  emoji_name reaction = deleteEmoji (config b) ->
  let w1 := (x2iExec formatObject b message w).2 in
  exists w2,
    reactDeleteMessage b reaction (author message) w1 = (Normal (), w2)
    /\ replies w2 = replies w
    /\ events w2 = events w1 ++ [MessageDelete mid; DbDeleteMessage mid].
Proof.
  intros H F Hbot n mid Hin Hfresh Hemoji w1.
  subst w1. rewrite (x2iExec_run formatObject b message w H F). cbn [snd]. fold n.
  match goal with |- context [reactDeleteMessage _ _ _ ?x] => set (w' := x) end.
  assert (R : replies w' = replies w ++ [reply_record w message n]) by reflexivity.
  assert (F' : faults w' = []) by exact F.
  destruct (find_fresh (record_of mid) (replies w) (reply_record w message n) Hfresh
              (record_of_reply_record w n mid Hin)) as [Hfind Hfilter].
  assert (A : authorized b w' reaction (author message) = true).
  { apply authorized_iff. split; [exact Hbot|]. split; [|exact Hemoji].
    unfold stored_author. fold mid. rewrite R, Hfind. reflexivity. }
  rewrite (reactDelete_authorized b reaction (author message) w' A F').
  eexists. split; [reflexivity|]. fold mid. split; [|reflexivity].
  change (List.filter (fun r => negb (record_of mid r)) (replies w') = replies w).
  rewrite R. exact Hfilter.
Qed.

(** X18. [parse] takes nothing away: whatever the message and whatever fails,
    it deletes no message and no record, writes nothing to the error
    journal and does not end the process; the records are those there
    were, with at most one more. *)
Theorem parse_is_not_destructive w :
  let w' := (parse formatObject engine b message w).2 in
  exists es,
    events w' = events w ++ es
    /\ existsb destructive es = false
    /\ errors w' = errors w
    /\ (replies w' = replies w \/ exists r, replies w' = replies w ++ [r]).
Proof.
  unfold parse. destruct (bot (author message)).
  { exists []. cbn. rewrite app_nil_r. auto. }
  rewrite bind_run.
  destruct (decide (x2i_results b message = [])) as [Hnil|Hsome].
  - rewrite (x2iExec_unparsed formatObject b message w Hnil).
    destruct (command_effects engine b message w) as (cs & -> & Hcs).
    exists cs. cbn. auto using command_only_not_destructive.
  - destruct (x2iExec_parsed formatObject b message w Hsome) as (w1 & xs & E & Ev & Hxs).
    destruct (x2iExec_store formatObject b message w) as (Herr & Hrec).
    rewrite E in *. cbn [snd] in *. unfold mret, M_ret. cbn [snd].
    exists xs. repeat split; auto using x2i_only_not_destructive.
Qed.

End Roundtrip.

Lemma reply_then_delete_witness :
  let m := message_from alice 50 "x is x" in
  let w1 := (x2iExec sample_format (sample_bot 3) m empty_world).2 in
  let reaction := {| reaction_message := {| message_id := 101; content := [];
                                            author := connie; channel := 7 |};
                     emoji_name := js "X" |} in
  exists w2,
    reactDeleteMessage (sample_bot 3) reaction alice w1 = (Normal (), w2)
    /\ replies w2 = []
    /\ events w2 = events w1 ++ [MessageDelete 101; DbDeleteMessage 101].
Proof.
  intros m w1 reaction.
  apply (reply_then_delete_restores_the_store sample_format (sample_bot 3) m
           empty_world reaction);
    [discriminate | reflexivity | discriminate | | reflexivity | reflexivity].
  right. left. reflexivity.
Defined.

(** ** Startup *)

(** X19. [startup] starts the three helpers before it loads the keys, and so
    also when the loading fails. It rejects with only that done when one
    of the two reads of the loading fails. When both have answered, the
    keys are announced as loaded before they are built: if the files do
    not load, [startup] rejects after that line, and "Setup complete." is
    not logged; if they do, it resolves with the bot made ready, its
    table and settings kept. *)
Theorem startup_starts_helpers_first x2iKeys b w :
  let r := startup x2iKeys b w in
  let before :=
    [Log (js "info") [LText (js "Bot ready. Setting up...")];
     Started UpdateActivity; Started NotifyRestart; Started NotifyNewErrors;
     Log (js "info") [LText loading_format; LText (x2iFiles (config b))]] in
  let loaded := Log (js "info") [LText (js "X2I keys have been loaded.")] in
  (exists e fs,
     (faults w = Some e :: fs \/ faults w = None :: Some e :: fs)
     /\ r.1 = Throw e /\ events r.2 = events w ++ before)
  \/ (exists e,
        x2iKeys = Throw e /\ r.1 = Throw e
        /\ events r.2 = events w ++ before ++ [loaded])
  \/ (exists keys,
        x2iKeys = Normal keys
        /\ r.1 = Normal {| bot_user := bot_user b; config := config b;
                           commands := commands b; x2i := Some keys; ready := true |}
        /\ events r.2
           = events w ++ before
             ++ [loaded; Log (js "info") [LText (js "Setup complete.")]]).
Proof.
  unfold startup, loadKeys. unfold_M.
  destruct w as [ev rp er fs ni nw]. cbn.
  destruct x2iKeys as [keys|e0]; destruct fs as [|[e|] [|[e'|] fs]]; cbn;
    rewrite <- ?app_assoc; cbn; eauto 10.
Qed.

(** Rule files that do not load: the six lines, and then the
    rejection. *)
Example startup_load_fault :
  let r := startup (Throw other_fault) (sample_bot 5) empty_world in
  r.1 = Throw other_fault
  /\ length (events r.2) = 6%nat
  /\ last (events r.2) = Some (Log (js "info") [LText (js "X2I keys have been loaded.")]).
Proof. cbv zeta. repeat split; reflexivity. Qed.

(** ** More on the plain rendering *)

Lemma join_In sep x l :
  In x l -> exists before after, join sep l = before ++ x ++ after.
Proof.
  induction l as [|y l IH]; [intros []|].
  intros [->|H].
  - destruct l as [|z l]; cbn [join].
    + exists [], []. now rewrite app_nil_r.
    + exists [], (sep ++ join sep (z :: l)). reflexivity.
  - destruct (IH H) as (before & after & E).
    destruct l as [|z l]; [destruct H|].
    change (join sep (y :: z :: l)) with (y ++ sep ++ join sep (z :: l)).
    rewrite E. exists (y ++ sep ++ before), after. now rewrite <- !app_assoc.
Qed.

Lemma includes_app_l a s t : includes s t = true -> includes (a ++ s) t = true.
Proof.
  rewrite !includes_iff. intros (before & after & ->).
  exists (a ++ before), after. now rewrite <- app_assoc.
Qed.

Lemma includes_middle a t c : includes (a ++ t ++ c) t = true.
Proof. apply includes_iff. eauto. Qed.

Module EmbedMore.
Import Embed.

(** X20. Nothing of the message is lost in the plain text: it holds the body
    of every field, the name of every field in bold when headers are
    kept, the title in bold and the description when they are there. *)
Theorem strip_keeps_everything message headers :
  (forall fs f, fields message = Some fs -> In f fs ->
     includes (strip message headers) (value f) = true
     /\ includes (strip message true) (bold (name f)) = true)
  /\ (truthy (title message) = true ->
      includes (strip message headers) (bold (default [] (title message))) = true)
  /\ (truthy (description message) = true ->
      includes (strip message headers) (default [] (description message)) = true).
Proof.
  unfold strip.
  set (T := if truthy (title message)
            then bold (default [] (title message)) ++ [NEWLINE] else []).
  set (D := if truthy (description message)
            then default [] (description message) ++ [NEWLINE] else []).
  split; [|split].
  - intros fs f Hfs Hin.
    assert (B : forall h, exists before after,
                  handleBody message h
                  = before ++ ((if h then bold (name f) ++ [NEWLINE] else []) ++ value f)
                    ++ after).
    { intros h. unfold handleBody. rewrite Hfs. apply join_In.
      apply in_map_iff. exists f. auto. }
    split.
    + destruct (B headers) as (before & after & ->). apply includes_iff.
      exists (T ++ D ++ [NEWLINE] ++ before
                ++ (if headers then bold (name f) ++ [NEWLINE] else [])), after.
      now rewrite <- !app_assoc.
    + destruct (B true) as (before & after & ->). apply includes_iff.
      exists (T ++ D ++ [NEWLINE] ++ before), ([NEWLINE] ++ value f ++ after).
      now rewrite <- !app_assoc.
  - intros H. subst T. rewrite H. apply includes_iff.
    exists [], ([NEWLINE] ++ D ++ [NEWLINE] ++ handleBody message headers).
    now rewrite <- !app_assoc.
  - intros H. subst D. rewrite H. apply includes_iff.
    exists T, ([NEWLINE] ++ [NEWLINE] ++ handleBody message headers).
    now rewrite <- !app_assoc.
Qed.

(** X21. The plain text is never empty, since it always holds the line break
    between head and body. A message without fields, or with an empty list
    of fields, has an empty body, so that headers make no difference and
    the text ends with that line break. *)
Theorem strip_without_fields message headers :
  strip message headers <> []
  /\ (fields message = None \/ fields message = Some [] ->
      handleBody message headers = []
      /\ strip message true = strip message false
      /\ last (strip message headers) = Some NEWLINE).
Proof.
  split.
  - unfold strip. intros H. apply (f_equal length) in H.
    rewrite !length_app in H. cbn in H. lia.
  - intros H.
    assert (B : forall h, handleBody message h = []).
    { intros h. unfold handleBody. now destruct H as [-> | ->]. }
    split; [apply B|]. unfold strip. rewrite !B. split; [reflexivity|].
    rewrite app_nil_r, !app_assoc. apply last_snoc.
Qed.

End EmbedMore.

Lemma strip_keeps_witness :
  let m := {| title := Some (js "Help"); description := None;
              fields := Some [ {| name := js "x"; value := js "X-SAMPA" |} ] |} in
  includes (Embed.strip m false) (js "X-SAMPA") = true
  /\ includes (Embed.strip m false) (js "**Help**") = true.
Proof.
  intros m.
  destruct (EmbedMore.strip_keeps_everything m false) as (Hf & Ht & _).
  split.
  - exact (proj1 (Hf _ {| name := js "x"; value := js "X-SAMPA" |} eq_refl
                    (or_introl eq_refl))).
  - exact (Ht eq_refl).
Defined.

Lemma strip_without_fields_witness :
  Embed.strip {| title := Some (js "Help"); description := None; fields := None |} true
  = Embed.strip {| title := Some (js "Help"); description := None; fields := None |} false.
Proof.
  destruct (EmbedMore.strip_without_fields
              {| title := Some (js "Help"); description := None; fields := None |} true)
    as (_ & H).
  exact (proj1 (proj2 (H (or_introl eq_refl)))).
Defined.

(** ** The earlier revision *)

Section OlderFacts.

Variable formatObject : Reply -> option User -> IConniebotConfig -> Reply.
Variable older_x2i : jsstring -> jsstring.
Variable c : IConniebotConfig.
Variable client_user : option User.

(** X22. In the earlier revision the first part of a text over the limit has
    the limit's length, ellipsis included, when the limit is at least 1.
    With the limit 0, or below, the end given to [slice] is negative and
    counts from the end of the text: at limit 0 all of the text but its
    last character is sent, and the ellipsis. *)
Theorem older_first_part results :
  let L := timeoutChars c in
  let len := Z.of_nat (length results) in
  exists first rest,
    (Older.x2i_responses formatObject c client_user results).1 = Plain first :: rest
    /\ ((1 <= L < len)%Z -> Z.of_nat (length first) = L /\ length rest = 1%nat)
    /\ ((len <= L)%Z -> first = results /\ rest = [])
    /\ ((L <= 0)%Z -> (L < len)%Z ->
        first = take (Z.to_nat (len + L - 1)) results ++ [ELLIPSIS]
        /\ length rest = 1%nat).
Proof.
  intros L len. unfold Older.x2i_responses. fold L. fold len.
  destruct (Z.gtb_spec len L) as [Hlong|Hshort].
  - eexists _, _. split; [reflexivity|]. cbn [length].
    rewrite length_app. cbn [length]. unfold slice0. fold len.
    destruct (Z.ltb_spec (L - 1) 0) as [Hneg|Hpos].
    + repeat split; try lia. f_equal. f_equal. lia.
    + rewrite length_take. repeat split; try lia.
  - eexists _, _. split; [reflexivity|]. fold len. repeat split; try lia.
Qed.

Lemma older_send_all_trace message responses w :
  exists es,
    events (Older.send_all message responses w).2 = events w ++ es
    /\ forallb (fun e => match e with Send _ _ _ | Log _ _ => true | _ => false end) es
       = true
    /\ replies (Older.send_all message responses w).2 = replies w.
Proof.
  revert w. induction responses as [|r rs IH]; intros w.
  - exists []. cbn. now rewrite app_nil_r.
  - cbn [Older.send_all]. rewrite bind_run, channel_send_run.
    destruct (faults w) as [|[e|] fs].
    + match goal with |- context [Older.send_all message rs ?w1] =>
        destruct (IH w1) as (es & E & X & R) end.
      exists (Send (channel message) r (next_id w) :: es).
      rewrite E, R. cbn. rewrite <- !app_assoc. auto.
    + exists []. cbn. now rewrite app_nil_r.
    + match goal with |- context [Older.send_all message rs ?w1] =>
        destruct (IH w1) as (es & E & X & R) end.
      exists (Send (channel message) r (next_id w) :: es).
      rewrite E, R. cbn. rewrite <- !app_assoc. auto.
Qed.

(** X23. The earlier revision only sends and logs: it tags no reply and keeps
    no record, so that no reaction could find the author of a reply; and
    it never rejects either. *)
Theorem older_x2iExec_keeps_no_record message w :
  let r := Older.x2iExec formatObject older_x2i c client_user message w in
  r.1 = Normal (negb (bool_decide (older_x2i (content message) = [])))
  /\ replies r.2 = replies w
  /\ exists es,
      events r.2 = events w ++ es
      /\ forallb (fun e => match e with Send _ _ _ | Log _ _ => true | _ => false end) es
         = true.
Proof.
  unfold Older.x2iExec.
  destruct (bool_decide (older_x2i (content message) = [])); cbn [negb].
  { cbn. repeat split; auto. exists []. now rewrite app_nil_r. }
  destruct (Older.x2i_responses formatObject c client_user (older_x2i (content message)))
    as [responses logCode].
  rewrite bind_run. unfold try_catch. rewrite bind_run.
  destruct (older_send_all_trace message responses w) as (es & E & X & R).
  destruct (Older.send_all message responses w) as [[[]|e] w1]; cbn [snd] in *.
  - rewrite log_run. cbn. repeat split; auto.
    eexists (es ++ [_]). rewrite E, <- app_assoc. split; [reflexivity|].
    rewrite forallb_app, X. reflexivity.
  - rewrite log_run. cbn. repeat split; auto.
    eexists (es ++ [_]). rewrite E, <- app_assoc. split; [reflexivity|].
    rewrite forallb_app, X. reflexivity.
Qed.

End OlderFacts.

Lemma older_first_part_witness :
  exists first rest,
    (Older.x2i_responses sample_format (sample_config 3) (Some connie) (js "abcdef")).1
    = Plain first :: rest
    /\ Z.of_nat (length first) = 3%Z.
Proof.
  destruct (older_first_part sample_format (sample_config 3) (Some connie) (js "abcdef"))
    as (first & rest & E & H & _).
  exists first, rest. split; [exact E|]. apply H. simpl. lia.
Defined.
